(** * Edge server placement: a shallow embedding of [algorithms.py]

    The development models the placement strategies of
    [src/algorithms.py] (k-means, Top-K, random and the MIP stub), the
    shared distance function and the latency objective, and proves or
    refutes the properties stated about them.

    Numbers.  Python [float]/[int] values (coordinates, distances,
    workloads) are modelled as rationals [Q]: every finite float is a
    rational, comparisons on them are exact, and the sentinel [1e10] is
    the rational [10000000000].  Rounding of float addition, infinities
    and NaN are not modelled.  Identifiers are Python integers ([Z]).

    Exceptions.  A method that can raise returns a [result]; a raising
    call leaves the object as it was (every [place_server] assigns
    [self.edge_servers] as its last effect). *)

From Stdlib Require Import ZArith QArith Qabs Lqa Lia Sorted.
From stdpp Require Import base tactics option list.

Local Open Scope Z_scope.

(** ** Exceptions and the error monad *)

Inductive exn : Set :=
| AssertionError
| AttributeError
| IndexError
| ValueError
| ZeroDivisionError
| NotImplementedError
| ExternalError.

Inductive result (A : Type) : Type :=
| Ok (a : A)
| Raise (e : exn).
Arguments Ok {A} a.
Arguments Raise {A} e.

#[global] Instance result_ret : MRet result := λ A a, Ok a.
#[global] Instance result_bind : MBind result :=
  λ A B f m, match m with Ok a => f a | Raise e => Raise e end.

Definition succeeds {A} (r : result A) : Prop := ∃ a, r = Ok a.

(** ** Python list primitives *)

(** [l[i]] for a Python integer [i]: negative indices count from the end,
    anything outside [-len, len) raises [IndexError]. *)
Definition py_index {A} (l : list A) (i : Z) : result A :=
  let n := Z.of_nat (length l) in
  let j := if i <? 0 then i + n else i in
  if (j <? 0) || (n <=? j) then Raise IndexError
  else match l !! Z.to_nat j with
       | Some x => Ok x
       | None => Raise IndexError
       end.

(** [l[:k]] for a Python integer [k]: a negative [k] drops the last [-k]
    elements, a [k] beyond the length takes the whole list. *)
Definition py_slice_to {A} (l : list A) (k : Z) : list A :=
  if k <? 0 then take (Z.to_nat (Z.of_nat (length l) + k)) l
  else take (Z.to_nat k) l.

(** Python's [x < y] on numbers. *)
Definition Qltb (x y : Q) : bool :=
  Qnum x * QDen y <? Qnum y * QDen x.

(** ** Data model *)

(** Modelled from the spec: class [BaseStation] (module [base_station],
    not among the sources); the fields the algorithms read are [id],
    [latitude], [longitude] and [workload]. *)
Module BaseStation.
Record t : Type := new {
  id : Z;
  latitude : Q;
  longitude : Q;
  workload : Q;
}.

(** Where a server seeded at this base station stands. *)
Definition site (a : t) : Q * Q * option Z :=
  (latitude a, longitude a, Some (id a)).
End BaseStation.

(** Modelled from the spec: class [EdgeServer] (module [edge_server], not
    among the sources), built by [EdgeServer(id, latitude, longitude)] or
    [EdgeServer(id, latitude, longitude, base_station_id)]; a fresh server
    has no co-located base station unless one is given, an empty
    [assigned_base_stations] list and workload [0]. *)
Module EdgeServer.
Record t : Type := mk {
  id : Z;
  latitude : Q;
  longitude : Q;
  base_station_id : option Z;
  assigned_base_stations : list BaseStation.t;
  workload : Q;
}.

Definition new (i : Z) (lat lon : Q) (bsid : option Z) : t :=
  mk i lat lon bsid [] 0%Q.

(** [es.assigned_base_stations.append(bs); es.workload += bs.workload] *)
Definition assign (bs : BaseStation.t) (es : t) : t :=
  mk (id es) (latitude es) (longitude es) (base_station_id es)
     (assigned_base_stations es ++ [bs])
     (workload es + BaseStation.workload bs)%Q.

(** Where a server stands: its coordinates and co-located base station. *)
Definition site (es : t) : Q * Q * option Z :=
  (latitude es, longitude es, base_station_id es).
End EdgeServer.

(** The functions the module imports from outside the repository's
    sources, taken as an interface. *)
Class Externals : Type := {
  (** [DataUtils.calc_distance(lat_a, lng_a, lat_b, lng_b)] *)
  calc_distance : Q → Q → Q → Q → Q;
  (** [scipy.cluster.vq.kmeans2(data, k, iter=100, minit='points')]:
      the centroids and, for each observation, the index of its centroid *)
  kmeans2 : list (Q * Q) → Z → result (list (Q * Q) * list nat);
  (** the selection drawn by [random.sample(population, k)] once the
      count has been validated *)
  sample_choice : list BaseStation.t → nat → list BaseStation.t;
  (** the index order produced by [ndarray.argpartition(kth)] once [kth]
      has been validated and normalised *)
  argpartition_order : list Q → nat → list nat;
  (** the outcome of the calls made on [cplex.Cplex] by [setupup_problem] *)
  cplex_setup : result unit;
}.

(** [ServerPlacement]: the object state shared by all strategies. *)
Record ServerPlacement : Type := mkServerPlacement {
  base_stations : list BaseStation.t;
  distances : list (list Q);
  edge_servers : option (list EdgeServer.t);
}.

(** [ServerPlacement.__init__] *)
Definition init (bss : list BaseStation.t) (d : list (list Q)) : ServerPlacement :=
  mkServerPlacement bss d None.

Definition set_edge_servers (st : ServerPlacement) (es : list EdgeServer.t)
  : ServerPlacement :=
  mkServerPlacement (base_stations st) (distances st) (Some es).

Inductive strategy : Set :=
| Base        (* ServerPlacement *)
| MIP         (* MIPServerPlacement *)
| KMeans      (* KMeansServerPlacement *)
| TopK        (* TopKServerPlacement *)
| Random.     (* RandomServerPlacement *)

(** The sentinel [1e10] that initialises [min_distance]. *)
Definition sentinel : Q := 10000000000 # 1.

Section Algorithms.
Context `{ext : Externals}.

Definition geometric (es : EdgeServer.t) (bs : BaseStation.t) : Q :=
  calc_distance (EdgeServer.latitude es) (EdgeServer.longitude es)
                (BaseStation.latitude bs) (BaseStation.longitude bs).

(** [ServerPlacement._distance_edge_server_base_station].  The test
    [if edge_server.base_station_id:] is Python truthiness: [None] and the
    integer [0] are both false. *)
Definition _distance_edge_server_base_station (d : list (list Q))
    (es : EdgeServer.t) (bs : BaseStation.t) : result Q :=
  match EdgeServer.base_station_id es with
  | Some i =>
      if i =? 0 then Ok (geometric es bs)
      else row ← py_index d i; py_index row (BaseStation.id bs)
  | None => Ok (geometric es bs)
  end.

(** *** The objective [objective_latency] *)

(** [for bs in es.assigned_base_stations: ...] with the two accumulators
    [total_delay] and [base_station_num]. *)
Fixpoint latency_stations (d : list (list Q)) (es : EdgeServer.t)
    (assigned : list BaseStation.t) (acc : Q * Z) : result (Q * Z) :=
  match assigned with
  | [] => Ok acc
  | bs :: rest =>
      delay ← _distance_edge_server_base_station d es bs;
      latency_stations d es rest ((acc.1 + delay)%Q, acc.2 + 1)
  end.

(** [for es in self.edge_servers: ...] *)
Fixpoint latency_servers (d : list (list Q)) (servers : list EdgeServer.t)
    (acc : Q * Z) : result (Q * Z) :=
  match servers with
  | [] => Ok acc
  | es :: rest =>
      acc' ← latency_stations d es (EdgeServer.assigned_base_stations es) acc;
      latency_servers d rest acc'
  end.

(** [ServerPlacement.objective_latency]; [assert self.edge_servers]
    fails on [None] and on the empty list. *)
Definition objective_latency (st : ServerPlacement) : result Q :=
  match edge_servers st with
  | None | Some [] => Raise AssertionError
  | Some servers =>
      acc ← latency_servers (distances st) servers (0%Q, 0);
      if acc.2 =? 0 then Raise ZeroDivisionError
      else Ok (acc.1 / inject_Z acc.2)%Q
  end.

(** *** The nearest-assignment loop of Top-K and Random *)

(** [for j, edge_server in enumerate(edge_servers)]: the loop state is
    [min_distance] and [closest_edge_server], the latter held as the
    position of the referenced object in [edge_servers]. *)
Fixpoint closest_loop (d : list (list Q)) (bs : BaseStation.t)
    (servers : list EdgeServer.t) (j : nat)
    (min_distance : Q) (closest : option nat) : result (Q * option nat) :=
  match servers with
  | [] => Ok (min_distance, closest)
  | es :: rest =>
      tmp ← _distance_edge_server_base_station d es bs;
      if Qltb tmp min_distance
      then closest_loop d bs rest (S j) tmp (Some j)
      else closest_loop d bs rest (S j) min_distance closest
  end.

(** One iteration of the outer loop.  With no server closer than the
    sentinel, [closest_edge_server] is still [None] and the attribute
    access raises. *)
Definition assign_one (d : list (list Q)) (servers : list EdgeServer.t)
    (bs : BaseStation.t) : result (list EdgeServer.t) :=
  r ← closest_loop d bs servers 0 sentinel None;
  match r.2 with
  | None => Raise AttributeError
  | Some j => Ok (alter (EdgeServer.assign bs) j servers)
  end.

(** [for i, base_station in enumerate(...)] *)
Fixpoint assign_all (d : list (list Q)) (servers : list EdgeServer.t)
    (stations : list BaseStation.t) : result (list EdgeServer.t) :=
  match stations with
  | [] => Ok servers
  | bs :: rest =>
      servers' ← assign_one d servers bs;
      assign_all d servers' rest
  end.

(** [[EdgeServer(i, item.latitude, item.longitude, item.id)
      for i, item in enumerate(seeds)]] *)
Definition seed_servers (seeds : list BaseStation.t) : list EdgeServer.t :=
  imap (λ i item, EdgeServer.new (Z.of_nat i) (BaseStation.latitude item)
                    (BaseStation.longitude item) (Some (BaseStation.id item)))
       seeds.

(** *** Top-K *)

(** [sorted(..., key=lambda x: x.workload, reverse=True)]: Python's sort
    is stable, also under [reverse=True].  A stable insertion sort: an
    element is put in front of the first one whose workload is not
    larger than its own. *)
Fixpoint insert_desc (x : BaseStation.t) (l : list BaseStation.t)
  : list BaseStation.t :=
  match l with
  | [] => [x]
  | y :: l' =>
      if Qle_bool (BaseStation.workload y) (BaseStation.workload x)
      then x :: y :: l'
      else y :: insert_desc x l'
  end.

Fixpoint sorted_desc (l : list BaseStation.t) : list BaseStation.t :=
  match l with
  | [] => []
  | x :: l' => insert_desc x (sorted_desc l')
  end.

(** [TopKServerPlacement.place_server] *)
Definition topk_place_server (st : ServerPlacement) (edge_server_num : Z)
  : result ServerPlacement :=
  let sorted_base_stations := sorted_desc (base_stations st) in
  let servers := seed_servers (py_slice_to sorted_base_stations edge_server_num) in
  servers' ← assign_all (distances st) servers sorted_base_stations;
  Ok (set_edge_servers st servers').

(** *** Random *)

(** [random.sample(population, k)] raises [ValueError] unless
    [0 <= k <= len(population)]. *)
Definition random_sample (population : list BaseStation.t) (k : Z)
  : result (list BaseStation.t) :=
  if (k <? 0) || (Z.of_nat (length population) <? k) then Raise ValueError
  else Ok (sample_choice population (Z.to_nat k)).

(** [RandomServerPlacement.place_server] *)
Definition random_place_server (st : ServerPlacement) (edge_server_num : Z)
  : result ServerPlacement :=
  random_base_stations ← random_sample (base_stations st) edge_server_num;
  let servers := seed_servers random_base_stations in
  servers' ← assign_all (distances st) servers (base_stations st);
  Ok (set_edge_servers st servers').

(** *** K-means *)

(** [[EdgeServer(i, row[0], row[1]) for i, row in enumerate(centroid)]] *)
Definition centroid_servers (centroid : list (Q * Q)) : list EdgeServer.t :=
  imap (λ i row, EdgeServer.new (Z.of_nat i) row.1 row.2 None) centroid.

(** [for bs, es in enumerate(label)]: [edge_servers[es]] and
    [base_stations[bs]] raise [IndexError] out of range. *)
Fixpoint label_loop (bss : list BaseStation.t) (servers : list EdgeServer.t)
    (label : list nat) (bs : nat) : result (list EdgeServer.t) :=
  match label with
  | [] => Ok servers
  | es :: rest =>
      match servers !! es with
      | None => Raise IndexError
      | Some _ =>
          match bss !! bs with
          | None => Raise IndexError
          | Some b =>
              label_loop bss (alter (EdgeServer.assign b) es servers) rest (S bs)
          end
      end
  end.

(** [lambda x: x.workload != 0] *)
Definition nonzero_workload (x : EdgeServer.t) : bool :=
  negb (Qeq_bool (EdgeServer.workload x) 0).

(** [KMeansServerPlacement.place_server] *)
Definition kmeans_place_server (st : ServerPlacement) (edge_server_num : Z)
  : result ServerPlacement :=
  let coordinates :=
    map (λ x, (BaseStation.latitude x, BaseStation.longitude x))
        (base_stations st) in
  r ← kmeans2 coordinates edge_server_num;
  let servers := centroid_servers r.1 in
  servers' ← label_loop (base_stations st) servers r.2 0;
  Ok (set_edge_servers st (List.filter nonzero_workload servers')).

(** *** MIP *)

(** [row.argpartition(kth)]: [kth] must lie in [-n, n), a negative
    [kth] counts from the end. *)
Definition np_argpartition (row : list Q) (kth : Z) : result (list nat) :=
  let n := Z.of_nat (length row) in
  if (kth <? - n) || (n <=? kth) then Raise ValueError
  else Ok (argpartition_order row (Z.to_nat (if kth <? 0 then kth + n else kth))).

(** [for i, row in enumerate(d)] *)
Fixpoint preprocess_rows (rows : list (list Q)) (cap : Z)
  : result (list (list nat)) :=
  match rows with
  | [] => Ok []
  | row :: rest =>
      indices ← np_argpartition row cap;
      assign ← preprocess_rows rest cap;
      Ok (py_slice_to indices cap :: assign)
  end.

(** [MIPServerPlacement.preprocess_problem]; the model returns the local
    list [assign], which the method builds and then drops.
    [int(len(self.base_stations)/k)] truncates the quotient. *)
Definition preprocess_problem (st : ServerPlacement) (k : Z)
  : result (list (list nat)) :=
  if k =? 0 then Raise ZeroDivisionError
  else
    let cap := Z.of_nat (length (base_stations st)) ÷ k in
    preprocess_rows (distances st) cap.

(** [MIPServerPlacement.place_server]: it never assigns
    [self.edge_servers]. *)
Definition mip_place_server (st : ServerPlacement) (edge_server_num : Z)
  : result ServerPlacement :=
  _ ← preprocess_problem st edge_server_num;
  _ ← cplex_setup;
  Ok st.

(** [place_server], dispatched on the class of the object. *)
Definition place_server (s : strategy) (st : ServerPlacement)
    (edge_server_num : Z) : result ServerPlacement :=
  match s with
  | Base => Raise NotImplementedError
  | MIP => mip_place_server st edge_server_num
  | KMeans => kmeans_place_server st edge_server_num
  | TopK => topk_place_server st edge_server_num
  | Random => random_place_server st edge_server_num
  end.

End Algorithms.

(** ** Quantities the properties are stated with *)

(** The sum of the workloads of a sequence of base stations. *)
Definition stations_workload (l : list BaseStation.t) : Q :=
  foldr (λ b acc, (BaseStation.workload b + acc)%Q) 0%Q l.

(** The sum of the [workload] fields of a sequence of edge servers. *)
Definition servers_workload (l : list EdgeServer.t) : Q :=
  foldr (λ e acc, (EdgeServer.workload e + acc)%Q) 0%Q l.

(** All assigned base stations of a placement, server after server. *)
Definition assignment (servers : list EdgeServer.t) : list BaseStation.t :=
  concat (EdgeServer.assigned_base_stations <$> servers).

(** Coverage and exclusivity: the assigned lists together hold every base
    station as often as the input does. *)
Definition assigned_exactly_once (servers : list EdgeServer.t)
    (bss : list BaseStation.t) : Prop :=
  assignment servers ≡ₚ bss.

(** The placement of an object, if any, conserves the workload. *)
Definition conserves_workload (st : ServerPlacement) : Prop :=
  match edge_servers st with
  | None => True
  | Some servers =>
      (servers_workload servers == stations_workload (base_stations st))%Q
  end.

(** The workload of a server is the sum over its assigned list. *)
Definition workload_sound (e : EdgeServer.t) : Prop :=
  (EdgeServer.workload e
   == stations_workload (EdgeServer.assigned_base_stations e))%Q.

(** Descending order of the workloads, position by position. *)
Definition descending (l : list BaseStation.t) : Prop :=
  ∀ i j x y, (i < j)%nat → l !! i = Some x → l !! j = Some y →
    (BaseStation.workload y <= BaseStation.workload x)%Q.

(** The base stations of one workload class, in list order. *)
Definition of_workload (w : Q) (l : list BaseStation.t) : list BaseStation.t :=
  List.filter (λ b, Qeq_bool (BaseStation.workload b) w) l.

(** The [cap] nearest positions of a row of the distance table: [cap]
    distinct positions, none farther than a position left out. *)
Definition nearest_neighbourhood (row : list Q) (cap : nat) (nb : list nat)
  : Prop :=
  length nb = cap ∧ NoDup nb ∧
  (∀ j, j ∈ nb → (j < length row)%nat) ∧
  (∀ j j', j ∈ nb → (j' < length row)%nat → j' ∉ nb →
     (nth j row 0 <= nth j' row 0)%Q).

Section Statements.
Context `{ext : Externals}.

(** The distance from a server standing at [site] to [b] is available
    and lies below the sentinel. *)
Definition near (d : list (list Q)) (site : Q * Q * option Z)
    (b : BaseStation.t) : bool :=
  match _distance_edge_server_base_station d
          (EdgeServer.new 0 site.1.1 site.1.2 site.2) b with
  | Ok q => Qltb q sentinel
  | Raise _ => false
  end.

(** Every base station is [near] every candidate site. *)
Definition finite_distances (d : list (list Q))
    (sites : list (Q * Q * option Z)) (stations : list BaseStation.t) : bool :=
  forallb (λ b, forallb (λ site, near d site b) sites) stations.


(** What numpy documents for [argpartition]: the result is an order of
    all positions in which position [kth] holds what a sort would put
    there, nothing larger before it and nothing smaller after it. *)
Definition argpartition_contract : Prop :=
  ∀ (row : list Q) (kth : nat), (kth < length row)%nat →
    argpartition_order row kth ≡ₚ seq 0 (length row) ∧
    ∀ i j x y, (i ≤ kth)%nat → (kth ≤ j)%nat →
      argpartition_order row kth !! i = Some x →
      argpartition_order row kth !! j = Some y →
      (nth x row 0 <= nth y row 0)%Q.

(** [kmeans2] labels every observation. *)
Definition kmeans2_labels_all : Prop :=
  ∀ data k r, kmeans2 data k = Ok r → length r.2 = length data.

(** [random.sample] draws [k] members of the population. *)
Definition sample_draws_members : Prop :=
  ∀ (population : list BaseStation.t) (k : nat),
    (k ≤ length population)%nat →
    length (sample_choice population k) = k ∧
    sample_choice population k ⊆ population.

End Statements.

(** ** Concrete inputs *)

Module Scenario.

(** A planar stand-in for [DataUtils.calc_distance]. *)
Definition manhattan (lat_a lng_a lat_b lng_b : Q) : Q :=
  (Qabs (lat_a - lat_b) + Qabs (lng_a - lng_b))%Q.

Definition mean (l : list Q) : Q :=
  (foldr Qplus 0 l / inject_Z (Z.of_nat (length l)))%Q.

(** [kmeans2] asked for one cluster: the centroid is the mean of the
    observations and every label is [0]. *)
Definition one_cluster (data : list (Q * Q)) (k : Z)
  : result (list (Q * Q) * list nat) :=
  if (k =? 1) && negb (Nat.eqb (length data) 0)
  then Ok ([(mean data.*1, mean data.*2)], map (λ _, 0%nat) data)
  else Raise ExternalError.

(** An index order by insertion sort on the values: one of the orders
    [argpartition] may return. *)
Fixpoint insert_index (row : list Q) (i : nat) (p : list nat) : list nat :=
  match p with
  | [] => [i]
  | j :: p' =>
      if Qle_bool (nth i row 0%Q) (nth j row 0%Q) then i :: j :: p'
      else j :: insert_index row i p'
  end.

Definition argsort (row : list Q) (kth : nat) : list nat :=
  foldr (insert_index row) [] (seq 0 (length row)).

Definition grid : Externals := {|
  calc_distance := manhattan;
  kmeans2 := one_cluster;
  sample_choice := λ population k, take k population;
  argpartition_order := argsort;
  cplex_setup := Raise AttributeError;
|}.

(** Four base stations on the unit square, workload 1 each. *)
Definition square : list BaseStation.t :=
  [ BaseStation.new 0 0 0 1; BaseStation.new 1 0 1 1;
    BaseStation.new 2 1 0 1; BaseStation.new 3 1 1 1 ]%Q.

Definition square_distances : list (list Q) :=
  [ [0; 1; 1; 2]; [1; 0; 2; 1]; [1; 2; 0; 1]; [2; 1; 1; 0] ]%Q.

(** Two base stations, the second one without traffic. *)
Definition pair : list BaseStation.t :=
  [ BaseStation.new 0 0 0 5; BaseStation.new 1 0 1 0 ]%Q.

Definition pair_distances : list (list Q) := [ [0; 1]; [1; 0] ]%Q.

(** Two base stations without traffic. *)
Definition quiet : list BaseStation.t :=
  [ BaseStation.new 0 0 0 0; BaseStation.new 1 0 1 0 ]%Q.

(** Two base stations on one mast. *)
Definition cosited : list BaseStation.t :=
  [ BaseStation.new 0 0 0 5; BaseStation.new 1 0 0 3 ]%Q.

Definition cosited_distances : list (list Q) := [ [0; 0]; [0; 0] ]%Q.

(** The Top-K placement of two servers on the square. *)
Definition square_top2 : list EdgeServer.t :=
  [ EdgeServer.mk 0 0 0 (Some 0%Z)
      [BaseStation.new 0 0 0 1; BaseStation.new 2 1 0 1] 2;
    EdgeServer.mk 1 0 1 (Some 1%Z)
      [BaseStation.new 1 0 1 1; BaseStation.new 3 1 1 1] 2 ]%Q.

(** The Top-K placement on the pair, for any count from 2 on. *)
Definition pair_top : list EdgeServer.t :=
  [ EdgeServer.mk 0 0 0 (Some 0%Z) [BaseStation.new 0 0 0 5] 5;
    EdgeServer.mk 1 0 1 (Some 1%Z) [BaseStation.new 1 0 1 0] 0 ]%Q.

(** The Top-K placement of two servers on the mast. *)
Definition cosited_top2 : list EdgeServer.t :=
  [ EdgeServer.mk 0 0 0 (Some 0%Z)
      [BaseStation.new 0 0 0 5; BaseStation.new 1 0 0 3] 8;
    EdgeServer.mk 1 0 0 (Some 1%Z) [] 0 ]%Q.

End Scenario.

(** ** The workload objective and closed forms of the objectives *)

(** [ServerPlacement.objective_workload]; [np_std] stands for
    [numpy.std], applied to [[e.workload for e in self.edge_servers]]. *)
Definition objective_workload (np_std : list Q → Q) (st : ServerPlacement)
  : result Q :=
  match edge_servers st with
  | None | Some [] => Raise AssertionError
  | Some servers => Ok (np_std (EdgeServer.workload <$> servers))
  end.

Section Delays.
Context `{ext : Externals}.

(** The object after a call of [place_server]: the one returned, or the
    object as it was when the call raises. *)
Definition call (s : strategy) (st : ServerPlacement) (k : Z) : ServerPlacement :=
  match place_server s st k with
  | Ok st' => st'
  | Raise _ => st
  end.

(** The delay of one (edge server, base station) pair, where available. *)
Definition pair_delay (d : list (list Q)) (e : EdgeServer.t)
    (b : BaseStation.t) : Q :=
  match _distance_edge_server_base_station d e b with
  | Ok q => q
  | Raise _ => 0%Q
  end.

(** The delays of a placement, summed over every server and every base
    station assigned to it. *)
Definition total_delay (d : list (list Q)) (servers : list EdgeServer.t) : Q :=
  foldr (λ e acc,
           (foldr (λ b acc', (pair_delay d e b + acc')%Q) 0%Q
                  (EdgeServer.assigned_base_stations e) + acc)%Q)
        0%Q servers.




(** Server [j] is the first of the servers at minimal distance from [b],
    and that distance is below the sentinel. *)
Definition nearest_server (d : list (list Q)) (servers : list EdgeServer.t)
    (j : nat) (b : BaseStation.t) : Prop :=
  ∃ e q,
    servers !! j = Some e ∧
    _distance_edge_server_base_station d e b = Ok q ∧
    (q < sentinel)%Q ∧
    ∀ i e', servers !! i = Some e' →
      ∃ q', _distance_edge_server_base_station d e' b = Ok q' ∧
            (q <= q')%Q ∧ ((i < j)%nat → (q < q')%Q).

(** Every base station is in the list of its [nearest_server]. *)
Definition placed_nearest (d : list (list Q)) (servers : list EdgeServer.t)
  : Prop :=
  ∀ j e b, servers !! j = Some e →
    b ∈ EdgeServer.assigned_base_stations e → nearest_server d servers j b.

End Delays.

(** The normalised [kth] of [argpartition(cap)] on a row of [n] entries,
    which is also the length of the slice [[:cap]] of its result. *)
Definition normalised (cap : Z) (n : nat) : nat :=
  Z.to_nat (if cap <? 0 then cap + Z.of_nat n else cap).

Module Cases.

(** A stand-in for [numpy.std]: the population variance, its square. *)
Definition variance (l : list Q) : Q :=
  let n := inject_Z (Z.of_nat (length l)) in
  let mean := (foldr Qplus 0 l / n)%Q in
  (foldr (λ x acc, (x - mean) * (x - mean) + acc) 0 l / n)%Q.

(** Base stations whose identifiers do not index the distance table. *)
Definition strangers : list BaseStation.t :=
  [ BaseStation.new 7 0 0 2; BaseStation.new 8 0 1 1 ]%Q.

End Cases.

(** * Properties *)

(** ** The error monad *)

Lemma bind_Ok {A B} (m : result A) (f : A → result B) (b : B) :
  m ≫= f = Ok b → ∃ a, m = Ok a ∧ f a = Ok b.
Proof. destruct m as [a|e]; simpl; [eauto | discriminate]. Qed.

Ltac inv_bind H :=
  let a := fresh "r" in
  let Ha := fresh "Hr" in
  apply bind_Ok in H as (a & Ha & H).

Lemma Qltb_lt (x y : Q) : Qltb x y = true ↔ (x < y)%Q.
Proof. unfold Qltb, Qlt. apply Z.ltb_lt. Qed.

Lemma Qltb_ge (x y : Q) : Qltb x y = false ↔ (y <= x)%Q.
Proof. unfold Qltb, Qle. apply Z.ltb_ge. Qed.

Section Properties.
Context `{ext : Externals}.

(** ** Distance *)

Lemma distance_not_colocated d es bs :
  EdgeServer.base_station_id es = None →
  _distance_edge_server_base_station d es bs = Ok (geometric es bs).
Proof. unfold _distance_edge_server_base_station. by intros ->. Qed.

Lemma distance_colocated d es bs i :
  EdgeServer.base_station_id es = Some i → i ≠ 0 →
  _distance_edge_server_base_station d es bs
  = (row ← py_index d i; py_index row (BaseStation.id bs)).
Proof.
  unfold _distance_edge_server_base_station. intros -> Hi.
  by destruct (Z.eqb_spec i 0).
Qed.

(** C5 (the code at the failing input): for an edge server co-located
    with the base station whose identifier is [0] the [base_station_id]
    is set, yet the distance returned is the geometric one computed from
    the coordinates; the entry of the distance table is not returned
    unless the two happen to agree. *)
Theorem distance_colocated_with_station_zero d es bs entry :
  EdgeServer.base_station_id es = Some 0 →
  (row ← py_index d 0; py_index row (BaseStation.id bs)) = Ok entry →
  _distance_edge_server_base_station d es bs = Ok (geometric es bs) ∧
  (¬ (entry == geometric es bs)%Q →
   _distance_edge_server_base_station d es bs ≠ Ok entry).
Proof.
  unfold _distance_edge_server_base_station. intros -> _. simpl.
  split; [done|]. intros Hne [= Heq]. apply Hne. by rewrite Heq.
Qed.

(** The distance depends on the site of the server only. *)
Lemma distance_site d e e' bs :
  EdgeServer.site e = EdgeServer.site e' →
  _distance_edge_server_base_station d e bs
  = _distance_edge_server_base_station d e' bs.
Proof.
  unfold EdgeServer.site, _distance_edge_server_base_station, geometric.
  intros [= -> -> ->]. done.
Qed.

(** ** Latency objective *)

(** C9: while [self.edge_servers] is unset, [objective_latency] fails at
    its assertion (the failure the specification names
    PrematureEvaluationError) and returns no value. *)
Theorem objective_latency_before_placement st :
  edge_servers st = None → objective_latency st = Raise AssertionError.
Proof. unfold objective_latency. by intros ->. Qed.

(** ** The nearest-assignment loop *)

(** The inner loop keeps the smallest distance seen and the first position
    where it was seen. *)
Lemma closest_loop_spec d bs servers j0 m c m' c' :
  closest_loop d bs servers j0 m c = Ok (m', c') →
  (m' <= m)%Q ∧
  (∀ i e, servers !! i = Some e →
     ∃ q, _distance_edge_server_base_station d e bs = Ok q ∧ (m' <= q)%Q) ∧
  ((c' = c ∧ m' = m) ∨
   (∃ i e, c' = Some (j0 + i)%nat ∧ servers !! i = Some e ∧
      _distance_edge_server_base_station d e bs = Ok m' ∧ (m' < m)%Q ∧
      ∀ i' e', (i' < i)%nat → servers !! i' = Some e' →
        ∃ q, _distance_edge_server_base_station d e' bs = Ok q ∧ (m' < q)%Q)).
Proof.
  revert j0 m c. induction servers as [|es rest IH]; intros j0 m c H; simpl in H.
  - injection H as -> ->. split; [lra|]. split; [|by left].
    intros i e Hi. by rewrite lookup_nil in Hi.
  - inv_bind H. rename r into tmp.
    destruct (Qltb tmp m) eqn:Hlt.
    + apply Qltb_lt in Hlt. apply IH in H as (Hle & Hall & Hc).
      split; [lra|]. split.
      * intros [|i] e Hi; simpl in Hi.
        -- injection Hi as <-. exists tmp. split; [done|lra].
        -- by apply Hall in Hi.
      * right. destruct Hc as [[-> ->] | (i & e & -> & Hi & He & Hlt' & Hfirst)].
        -- exists 0%nat, es. rewrite Nat.add_0_r. repeat split; try done.
           intros i' e' Hi'. lia.
        -- exists (S i), e. replace (j0 + S i)%nat with (S j0 + i)%nat by lia.
           repeat split; try done; [lra|].
           intros [|i'] e' Hi' He'; simpl in He'.
           ++ injection He' as <-. exists tmp. split; [done|lra].
           ++ apply (Hfirst i' e'); [lia|done].
    + apply Qltb_ge in Hlt. apply IH in H as (Hle & Hall & Hc).
      split; [done|]. split.
      * intros [|i] e Hi; simpl in Hi.
        -- injection Hi as <-. exists tmp. split; [done|lra].
        -- by apply Hall in Hi.
      * destruct Hc as [[-> ->] | (i & e & -> & Hi & He & Hlt' & Hfirst)];
          [by left|right].
        exists (S i), e. replace (j0 + S i)%nat with (S j0 + i)%nat by lia.
        repeat split; try done.
        intros [|i'] e' Hi' He'; simpl in He'.
        -- injection He' as <-. exists tmp. split; [done|lra].
        -- apply (Hfirst i' e'); [lia|done].
Qed.

(** A step of the outer loop alters the server at the position found. *)
Lemma assign_one_inv d servers bs servers' :
  assign_one d servers bs = Ok servers' →
  ∃ j es dj,
    servers !! j = Some es ∧
    _distance_edge_server_base_station d es bs = Ok dj ∧
    (∀ i e, servers !! i = Some e →
       ∃ di, _distance_edge_server_base_station d e bs = Ok di ∧
             (dj <= di)%Q ∧ ((i < j)%nat → (dj < di)%Q)) ∧
    servers' = alter (EdgeServer.assign bs) j servers.
Proof.
  unfold assign_one. intros H. inv_bind H. destruct r as [m' [j|]]; simpl in H; [|done].
  injection H as <-.
  apply closest_loop_spec in Hr as (_ & Hall & [[? _] | (i & e & Hj & Hi & He & _ & Hfirst)]);
    [done|].
  injection Hj as ->. simpl. exists i, e, m'. repeat split; try done.
  intros i' e' Hi'. destruct (Hall _ _ Hi') as (q & Hq & Hle).
  exists q. repeat split; try done.
  intros Hlt. destruct (Hfirst _ _ Hlt Hi') as (q' & Hq' & Hlt').
  rewrite Hq in Hq'. by injection Hq' as ->.
Qed.



(** ** Bookkeeping of the assigned lists and workloads *)

Lemma stations_workload_app l1 l2 :
  (stations_workload (l1 ++ l2)
   == stations_workload l1 + stations_workload l2)%Q.
Proof. induction l1 as [|b l1 IH]; simpl; lra. Qed.


Lemma assignment_alter bs j servers :
  (j < length servers)%nat →
  assignment (alter (EdgeServer.assign bs) j servers) ≡ₚ bs :: assignment servers.
Proof.
  unfold assignment. revert j.
  induction servers as [|e rest IH]; intros [|j] Hj; simpl in *; try lia.
  - rewrite <- app_assoc. simpl. symmetry. apply Permutation_middle.
  - etrans; [apply Permutation_app_head, (IH j); lia|].
    symmetry. apply Permutation_middle.
Qed.

Lemma servers_workload_alter bs j servers :
  (j < length servers)%nat →
  (servers_workload (alter (EdgeServer.assign bs) j servers)
   == BaseStation.workload bs + servers_workload servers)%Q.
Proof.
  revert j. induction servers as [|e rest IH]; intros [|j] Hj; simpl in Hj; try lia.
  - simpl. lra.
  - specialize (IH j ltac:(lia)).
    change (EdgeServer.workload e
            + servers_workload (alter (EdgeServer.assign bs) j rest)
            == BaseStation.workload bs
               + (EdgeServer.workload e + servers_workload rest))%Q.
    lra.
Qed.

Lemma site_alter bs (j : nat) (servers : list EdgeServer.t) :
  EdgeServer.site <$> alter (EdgeServer.assign bs) j servers
  = EdgeServer.site <$> servers.
Proof.
  revert j. induction servers as [|e rest IH]; intros [|j]; simpl; try done.
  f_equal. apply IH.
Qed.

Lemma id_alter bs (j : nat) (servers : list EdgeServer.t) :
  EdgeServer.id <$> alter (EdgeServer.assign bs) j servers
  = EdgeServer.id <$> servers.
Proof.
  revert j. induction servers as [|e rest IH]; intros [|j]; simpl; try done.
  f_equal. apply IH.
Qed.

Lemma workload_sound_alter bs (j : nat) (servers : list EdgeServer.t) :
  Forall workload_sound servers →
  Forall workload_sound (alter (EdgeServer.assign bs) j servers).
Proof.
  intros H. apply Forall_alter; [done|].
  intros e _ He. unfold workload_sound in *. simpl.
  rewrite stations_workload_app. simpl. lra.
Qed.

Lemma assign_all_inv d servers stations servers' :
  assign_all d servers stations = Ok servers' →
  assignment servers' ≡ₚ assignment servers ++ stations ∧
  (servers_workload servers'
   == servers_workload servers + stations_workload stations)%Q ∧
  EdgeServer.site <$> servers' = EdgeServer.site <$> servers ∧
  EdgeServer.id <$> servers' = EdgeServer.id <$> servers.
Proof.
  revert servers. induction stations as [|bs rest IH]; intros servers H; simpl in H.
  - injection H as <-. rewrite app_nil_r. simpl. repeat split; try done. lra.
  - inv_bind H. apply assign_one_inv in Hr as (j & es & dj & Hj & _ & _ & ->).
    apply lookup_lt_Some in Hj.
    apply IH in H as (Hperm & Hsum & Hsite & Hid).
    rewrite assignment_alter in Hperm by done.
    rewrite servers_workload_alter in Hsum by done.
    rewrite site_alter in Hsite. rewrite id_alter in Hid.
    repeat split; try done.
    + rewrite Hperm. apply Permutation_middle.
    + simpl. lra.
Qed.

Lemma fresh_servers {A} (f : nat → A → EdgeServer.t) (l : list A) :
  (∀ i a, EdgeServer.assigned_base_stations (f i a) = [] ∧
          EdgeServer.workload (f i a) = 0%Q) →
  assignment (imap f l) = [] ∧
  (servers_workload (imap f l) == 0)%Q ∧
  Forall workload_sound (imap f l).
Proof.
  revert f. induction l as [|a l IH]; intros f Hf.
  - split; [done|]. split; [simpl; lra | constructor].
  - rewrite imap_cons. destruct (Hf 0%nat a) as [Ha Hw].
    destruct (IH (f ∘ S)) as (Hl & Hs & HF); [intros i b; apply Hf|].
    unfold assignment in *. simpl. rewrite Ha. simpl.
    split; [done|]. split; [rewrite Hw, Hs; lra|].
    constructor; [|done]. unfold workload_sound. rewrite Ha, Hw. simpl. lra.
Qed.

Lemma seed_servers_fresh seeds :
  assignment (seed_servers seeds) = [] ∧
  (servers_workload (seed_servers seeds) == 0)%Q ∧
  Forall workload_sound (seed_servers seeds).
Proof. by apply fresh_servers. Qed.

Lemma centroid_servers_fresh centroid :
  assignment (centroid_servers centroid) = [] ∧
  (servers_workload (centroid_servers centroid) == 0)%Q ∧
  Forall workload_sound (centroid_servers centroid).
Proof. by apply fresh_servers. Qed.

Lemma imap_site {A} (f : nat → A → EdgeServer.t) (g : A → Q * Q * option Z)
    (l : list A) :
  (∀ i a, EdgeServer.site (f i a) = g a) →
  EdgeServer.site <$> imap f l = g <$> l.
Proof.
  revert f. induction l as [|a l IH]; intros f Hf; [done|].
  rewrite imap_cons. simpl. rewrite Hf. f_equal. apply IH. intros i b. apply Hf.
Qed.

Lemma seed_servers_site seeds :
  EdgeServer.site <$> seed_servers seeds
  = BaseStation.site <$> seeds.
Proof. by apply imap_site. Qed.

(** ** The descending stable sort *)

Lemma insert_desc_perm x l : insert_desc x l ≡ₚ x :: l.
Proof.
  induction l as [|y l IH]; simpl; [done|].
  destruct (Qle_bool _ _); [done|]. rewrite IH. apply perm_swap.
Qed.

Lemma sorted_desc_perm l : sorted_desc l ≡ₚ l.
Proof.
  induction l as [|x l IH]; simpl; [done|]. by rewrite insert_desc_perm, IH.
Qed.

Lemma descending_cons x l :
  descending (x :: l) ↔
  Forall (λ y, (BaseStation.workload y <= BaseStation.workload x)%Q) l ∧
  descending l.
Proof.
  split.
  - intros H. split.
    + apply Forall_lookup. intros j y Hy. apply (H 0%nat (S j) x y); [lia|done|done].
    + intros i j a b Hij Ha Hb. apply (H (S i) (S j)); [lia|done|done].
  - intros [HF H] [|i] [|j] a b Hij Ha Hb; simpl in *; try lia.
    + injection Ha as <-. by eapply (proj1 (Forall_lookup _ _) HF).
    + apply (H i j); [lia|done|done].
Qed.

Lemma insert_desc_descending x l :
  descending l → descending (insert_desc x l).
Proof.
  induction l as [|y l IH]; simpl; intros H.
  - apply descending_cons. split; [constructor|]. intros i j a b _ Ha. by destruct i.
  - destruct (Qle_bool _ _) eqn:Hle.
    + apply Qle_bool_iff in Hle. apply descending_cons. split; [|done].
      apply descending_cons in H as [HF _]. constructor; [done|].
      eapply Forall_impl; [exact HF|]. simpl. intros z Hz. lra.
    + assert (BaseStation.workload x < BaseStation.workload y)%Q as Hlt.
      { apply Qnot_le_lt. intros Hc. apply Qle_bool_iff in Hc. congruence. }
      apply descending_cons in H as [HF H].
      apply descending_cons. split; [|by apply IH].
      rewrite insert_desc_perm. constructor; [lra|done].
Qed.

Lemma sorted_desc_descending l : descending (sorted_desc l).
Proof.
  induction l as [|x l IH]; simpl.
  - intros i j a b _ Ha. by destruct i.
  - by apply insert_desc_descending.
Qed.

Lemma insert_desc_stable w x l :
  of_workload w (insert_desc x l) = of_workload w (x :: l).
Proof.
  unfold of_workload. induction l as [|y l IH]; simpl; [done|].
  destruct (Qle_bool _ _) eqn:Hle; [done|].
  simpl in *. rewrite IH.
  destruct (Qeq_bool (BaseStation.workload x) w) eqn:Hx; [|done].
  destruct (Qeq_bool (BaseStation.workload y) w) eqn:Hy; [|done].
  apply Qeq_bool_iff in Hx, Hy.
  assert (Qle_bool (BaseStation.workload y) (BaseStation.workload x) = true) as Hc.
  { apply Qle_bool_iff. lra. }
  congruence.
Qed.

Lemma sorted_desc_stable w l : of_workload w (sorted_desc l) = of_workload w l.
Proof.
  induction l as [|x l IH]; simpl; [done|].
  rewrite insert_desc_stable. unfold of_workload in *. simpl. by rewrite IH.
Qed.

Lemma sorted_desc_equal_workloads w l :
  Forall (λ b, (BaseStation.workload b == w)%Q) l → sorted_desc l = l.
Proof.
  induction 1 as [|x l Hx HF IH]; simpl; [done|]. rewrite IH.
  destruct HF as [|y l Hy HF]; simpl; [done|].
  assert (Qle_bool (BaseStation.workload y) (BaseStation.workload x) = true) as ->;
    [|done].
  apply Qle_bool_iff. lra.
Qed.

(** ** The k-means post-processing *)

Lemma label_loop_inv bss servers label i0 servers' :
  label_loop bss servers label i0 = Ok servers' →
  assignment servers'
    ≡ₚ assignment servers ++ take (length label) (drop i0 bss) ∧
  (servers_workload servers'
   == servers_workload servers
      + stations_workload (take (length label) (drop i0 bss)))%Q ∧
  (Forall workload_sound servers → Forall workload_sound servers').
Proof.
  revert servers i0.
  induction label as [|es rest IH]; intros servers i0 H; simpl in H.
  - injection H as <-. rewrite take_0, app_nil_r. simpl.
    split; [done|]. split; [lra|done].
  - destruct (servers !! es) as [e|] eqn:He; [|done].
    destruct (bss !! i0) as [b|] eqn:Hb; [|done].
    apply lookup_lt_Some in He.
    apply IH in H as (Hperm & Hsum & Hsound).
    rewrite assignment_alter in Hperm by done.
    rewrite servers_workload_alter in Hsum by done.
    rewrite (drop_S _ _ _ Hb). simpl.
    split; [|split].
    + rewrite Hperm. apply Permutation_middle.
    + lra.
    + intros HF. by apply Hsound, workload_sound_alter.
Qed.


Lemma filter_nonzero_Forall servers :
  Forall (λ e, ¬ (EdgeServer.workload e == 0)%Q)
         (List.filter nonzero_workload servers).
Proof.
  induction servers as [|e rest IH]; simpl; [constructor|].
  unfold nonzero_workload at 1.
  destruct (Qeq_bool (EdgeServer.workload e) 0) eqn:He; simpl; [done|].
  constructor; [|done]. intros Hc. apply Qeq_bool_iff in Hc. congruence.
Qed.

Lemma filter_assignment_submseteq (f : EdgeServer.t → bool) servers :
  assignment (List.filter f servers) ⊆+ assignment servers.
Proof.
  unfold assignment. induction servers as [|e rest IH]; simpl; [done|].
  destruct (f e); simpl.
  - by apply submseteq_app.
  - etrans; [exact IH|]. apply submseteq_inserts_l. done.
Qed.

Lemma positive_workloads l :
  Forall (λ b, (0 < BaseStation.workload b)%Q) l →
  (0 <= stations_workload l)%Q ∧ (l ≠ [] → (0 < stations_workload l)%Q).
Proof.
  induction 1 as [|b l Hb HF [IH _]]; simpl.
  - split; [lra|done].
  - split; [lra|]. intros _. lra.
Qed.

Lemma filter_nonzero_assignment servers :
  Forall workload_sound servers →
  Forall (λ b, (0 < BaseStation.workload b)%Q) (assignment servers) →
  assignment (List.filter nonzero_workload servers) = assignment servers.
Proof.
  unfold assignment. induction 1 as [|e rest He HF IH]; simpl; [done|].
  intros [Hpos Hrest]%Forall_app. specialize (IH Hrest).
  unfold nonzero_workload at 1.
  destruct (Qeq_bool (EdgeServer.workload e) 0) eqn:Hz; simpl.
  - apply Qeq_bool_iff in Hz. unfold workload_sound in He.
    destruct (EdgeServer.assigned_base_stations e) as [|b l] eqn:Hl; [done|].
    destruct (positive_workloads _ Hpos) as [_ Hgt].
    specialize (Hgt ltac:(done)). lra.
  - by f_equal.
Qed.

(** ** Placements *)

Lemma kmeans_place_server_inv st k st' :
  kmeans_place_server st k = Ok st' →
  ∃ centroid label servers,
    kmeans2 (map (λ x, (BaseStation.latitude x, BaseStation.longitude x))
                 (base_stations st)) k = Ok (centroid, label) ∧
    label_loop (base_stations st) (centroid_servers centroid) label 0 = Ok servers ∧
    st' = set_edge_servers st (List.filter nonzero_workload servers).
Proof.
  unfold kmeans_place_server. intros H. inv_bind H. inv_bind H.
  injection H as <-. destruct r as [centroid label]. by exists centroid, label, r0.
Qed.

Lemma topk_place_server_inv st k st' :
  topk_place_server st k = Ok st' →
  ∃ servers,
    assign_all (distances st)
      (seed_servers (py_slice_to (sorted_desc (base_stations st)) k))
      (sorted_desc (base_stations st)) = Ok servers ∧
    st' = set_edge_servers st servers.
Proof.
  unfold topk_place_server. intros H. inv_bind H. injection H as <-. by exists r.
Qed.

Lemma random_place_server_inv st k st' :
  random_place_server st k = Ok st' →
  ∃ seeds servers,
    random_sample (base_stations st) k = Ok seeds ∧
    assign_all (distances st) (seed_servers seeds) (base_stations st) = Ok servers ∧
    st' = set_edge_servers st servers.
Proof.
  unfold random_place_server. intros H. inv_bind H. inv_bind H.
  injection H as <-. by exists r, r0.
Qed.

Lemma mip_place_server_inv st k st' :
  mip_place_server st k = Ok st' → st' = st.
Proof.
  unfold mip_place_server. intros H. inv_bind H. inv_bind H. by injection H as <-.
Qed.

(** C10: a [place_server] call that returns leaves [self.base_stations]
    and [self.distances] as they were, for every strategy; the only field
    it may replace is [self.edge_servers]. *)
Theorem place_server_frame s st k st' :
  place_server s st k = Ok st' →
  base_stations st' = base_stations st ∧ distances st' = distances st.
Proof.
  destruct s; simpl; intros H.
  - done.
  - by apply mip_place_server_inv in H as ->.
  - by apply kmeans_place_server_inv in H as (? & ? & ? & _ & _ & ->).
  - by apply topk_place_server_inv in H as (? & _ & ->).
  - by apply random_place_server_inv in H as (? & ? & _ & _ & ->).
Qed.


Lemma init_conserves_workload bss d : conserves_workload (init bss d).
Proof. done. Qed.

(** C1 (amended): when [place_server] returns, Top-K and Random have put
    every base station in the list of exactly one edge server; k-means
    has put no base station in two lists, and every base station in one
    as soon as all workloads are positive ([kmeans2] is taken to label
    every observation). *)
Theorem place_server_assigns_once s st k st' :
  kmeans2_labels_all →
  s = KMeans ∨ s = TopK ∨ s = Random →
  place_server s st k = Ok st' →
  ∃ servers,
    edge_servers st' = Some servers ∧
    assignment servers ⊆+ base_stations st ∧
    (s ≠ KMeans ∨ Forall (λ b, (0 < BaseStation.workload b)%Q) (base_stations st) →
     assigned_exactly_once servers (base_stations st)).
Proof.
  intros Hk Hs H. unfold assigned_exactly_once.
  destruct Hs as [-> | [-> | ->]]; simpl in H.
  - apply kmeans_place_server_inv in H as (centroid & label & servers & Hkm & Hl & ->).
    apply Hk in Hkm. simpl in Hkm. rewrite length_map in Hkm.
    apply label_loop_inv in Hl as (Hperm & _ & Hsound).
    destruct (centroid_servers_fresh centroid) as (Hnil & _ & HF).
    rewrite Hnil, Hkm, drop_0, firstn_all in Hperm. simpl in Hperm.
    eexists. split; [done|]. split.
    + rewrite <- Hperm. apply filter_assignment_submseteq.
    + intros [?|Hpos]; [done|].
      rewrite filter_nonzero_assignment; [done|by apply Hsound|by rewrite Hperm].
  - apply topk_place_server_inv in H as (servers & Ha & ->).
    apply assign_all_inv in Ha as (Hperm & _).
    destruct (seed_servers_fresh (py_slice_to (sorted_desc (base_stations st)) k))
      as (Hnil & _ & _).
    rewrite Hnil, sorted_desc_perm in Hperm. simpl in Hperm.
    eexists. split; [done|]. by rewrite Hperm.
  - apply random_place_server_inv in H as (seeds & servers & _ & Ha & ->).
    apply assign_all_inv in Ha as (Hperm & _).
    destruct (seed_servers_fresh seeds) as (Hnil & _ & _).
    rewrite Hnil in Hperm. simpl in Hperm.
    eexists. split; [done|]. by rewrite Hperm.
Qed.

(** ** Termination of the greedy strategies without an exception *)

Lemma near_server d e b :
  near d (EdgeServer.site e) b = true →
  ∃ q, _distance_edge_server_base_station d e b = Ok q ∧ (q < sentinel)%Q.
Proof.
  unfold near. rewrite (distance_site d _ e) by done.
  destruct (_distance_edge_server_base_station d e b) as [q|]; [|done].
  intros Hq%Qltb_lt. by exists q.
Qed.

Lemma finite_distances_spec d sites stations :
  finite_distances d sites stations = true ↔
  ∀ b site, b ∈ stations → site ∈ sites → near d site b = true.
Proof.
  unfold finite_distances. rewrite forallb_forall. split.
  - intros H b site Hb Hs. apply list_elem_of_In in Hb, Hs.
    specialize (H b Hb). rewrite forallb_forall in H. by apply H.
  - intros H b Hb. apply forallb_forall. intros site Hs.
    apply H; by apply list_elem_of_In.
Qed.

Lemma closest_loop_total d bs servers j0 m c :
  (∀ e, e ∈ servers → near d (EdgeServer.site e) bs = true) →
  ∃ r, closest_loop d bs servers j0 m c = Ok r.
Proof.
  revert j0 m c. induction servers as [|e rest IH]; intros j0 m c H; simpl.
  - by eexists.
  - destruct (near_server d e bs) as (q & -> & _); [apply H; left|]. simpl.
    destruct (Qltb q m); apply IH; intros e' He'; apply H; by right.
Qed.

Lemma assign_one_total d servers bs :
  servers ≠ [] →
  (∀ e, e ∈ servers → near d (EdgeServer.site e) bs = true) →
  ∃ j, (j < length servers)%nat ∧
       assign_one d servers bs = Ok (alter (EdgeServer.assign bs) j servers).
Proof.
  intros Hne H. unfold assign_one.
  destruct (closest_loop_total d bs servers 0 sentinel None H) as ([m' c'] & Hr).
  rewrite Hr. simpl.
  apply closest_loop_spec in Hr as (_ & Hall & [[-> ->] | (i & e & -> & Hi & _)]).
  - destruct servers as [|e rest]; [done|].
    destruct (near_server d e bs) as (q & Hq & Hlt); [apply H; left|].
    destruct (Hall 0%nat e eq_refl) as (q' & Hq' & Hle).
    rewrite Hq in Hq'. injection Hq' as <-. lra.
  - exists i. split; [by eapply lookup_lt_Some|done].
Qed.

Lemma assign_all_total d servers stations :
  (stations ≠ [] → servers ≠ []) →
  (∀ b site, b ∈ stations → site ∈ EdgeServer.site <$> servers →
     near d site b = true) →
  succeeds (assign_all d servers stations).
Proof.
  revert servers. induction stations as [|bs rest IH]; intros servers Hne H; simpl.
  - by eexists.
  - destruct (assign_one_total d servers bs) as (j & Hj & ->); [by apply Hne| |].
    { intros e He. apply H; [left|]. by apply list_elem_of_fmap_2. }
    simpl. apply IH.
    + intros _ Hnil. apply (f_equal length) in Hnil.
      rewrite length_alter in Hnil. simpl in Hnil. lia.
    + intros b site Hb Hs. rewrite site_alter in Hs. apply H; [by right|done].
Qed.

Lemma py_slice_to_subseteq {A} (l : list A) (k : Z) : py_slice_to l k ⊆ l.
Proof.
  unfold py_slice_to. destruct (k <? 0); apply sublist_subseteq, sublist_take.
Qed.

Lemma py_slice_to_nonempty {A} (l : list A) (k : Z) :
  1 <= k → l ≠ [] → py_slice_to l k ≠ [].
Proof.
  unfold py_slice_to. intros Hk Hl. destruct (Z.ltb_spec k 0); [lia|].
  destruct l as [|x l]; [done|]. destruct (Z.to_nat k) eqn:Hn; [lia|done].
Qed.

Lemma seed_servers_nonempty seeds : seeds ≠ [] → seed_servers seeds ≠ [].
Proof. by destruct seeds. Qed.

Lemma sorted_desc_nonempty l : l ≠ [] → sorted_desc l ≠ [].
Proof.
  intros Hl Hs. apply Hl, Permutation_nil_r. rewrite <- Hs.
  symmetry. apply sorted_desc_perm.
Qed.

Lemma topk_place_server_total st k :
  1 <= k →
  finite_distances (distances st) (BaseStation.site <$> base_stations st)
                   (base_stations st) = true →
  succeeds (topk_place_server st k).
Proof.
  intros Hk Hfin. unfold topk_place_server.
  destruct (assign_all_total (distances st)
              (seed_servers (py_slice_to (sorted_desc (base_stations st)) k))
              (sorted_desc (base_stations st))) as (servers & ->).
  - intros Hne. apply seed_servers_nonempty, py_slice_to_nonempty; [done|].
    intros Hs. by rewrite Hs in Hne.
  - intros b site Hb Hs. rewrite seed_servers_site in Hs.
    apply list_elem_of_fmap in Hs as (a & -> & Ha).
    apply py_slice_to_subseteq in Ha.
    rewrite sorted_desc_perm in Hb, Ha.
    eapply finite_distances_spec; [exact Hfin|done|by apply list_elem_of_fmap_2].
  - by eexists.
Qed.

Lemma random_place_server_total st k :
  sample_draws_members →
  1 <= k <= Z.of_nat (length (base_stations st)) →
  finite_distances (distances st) (BaseStation.site <$> base_stations st)
                   (base_stations st) = true →
  succeeds (random_place_server st k).
Proof.
  intros Hsample Hk Hfin. unfold random_place_server, random_sample.
  destruct (Z.ltb_spec k 0); [lia|].
  destruct (Z.ltb_spec (Z.of_nat (length (base_stations st))) k); [lia|]. simpl.
  destruct (Hsample (base_stations st) (Z.to_nat k)) as [Hlen Hsub]; [lia|].
  destruct (assign_all_total (distances st)
              (seed_servers (sample_choice (base_stations st) (Z.to_nat k)))
              (base_stations st)) as (servers & ->).
  - intros _. apply seed_servers_nonempty. intros Hnil.
    rewrite Hnil in Hlen. simpl in Hlen. lia.
  - intros b site Hb Hs. rewrite seed_servers_site in Hs.
    apply list_elem_of_fmap in Hs as (a & -> & Ha). apply Hsub in Ha.
    eapply finite_distances_spec; [exact Hfin|done|by apply list_elem_of_fmap_2].
  - by eexists.
Qed.

Lemma assign_all_no_server d b stations :
  assign_all d [] (b :: stations) = Raise AttributeError.
Proof. done. Qed.

Lemma sorted_desc_length l : length (sorted_desc l) = length l.
Proof. by rewrite sorted_desc_perm. Qed.

(** C3 (amended): the count is validated by [random.sample] only.
    [RandomServerPlacement.place_server] raises (the [ValueError] of
    [random.sample]) when the count is negative or exceeds the number of
    base stations.  [TopKServerPlacement.place_server] reads the count as
    a slice bound: a count beyond the number of base stations acts as that
    number, a negative count [k] as [max 0 (n + k)].  With a count of [0]
    and at least one base station both fail at the first base station
    (attribute access on [None]).  With [1 <= k <= n] both return,
    provided every distance between a base-station site and a base station
    is available and below the sentinel; Top-K then returns for every
    [k >= 1]. *)
Theorem server_count_handling st k :
  sample_draws_members →
  let n := Z.of_nat (length (base_stations st)) in
  let finite :=
    finite_distances (distances st) (BaseStation.site <$> base_stations st)
                     (base_stations st) = true in
  (k < 0 ∨ n < k → place_server Random st k = Raise ValueError) ∧
  (k = 0 → 0 < n →
     place_server TopK st k = Raise AttributeError ∧
     place_server Random st k = Raise AttributeError) ∧
  (n <= k → place_server TopK st k = place_server TopK st n) ∧
  (k < 0 → place_server TopK st k = place_server TopK st (Z.max 0 (n + k))) ∧
  (1 <= k → finite → succeeds (place_server TopK st k)) ∧
  (1 <= k <= n → finite → succeeds (place_server Random st k)).
Proof.
  intros Hsample n finite. subst finite. simpl.
  split; [|split; [|split; [|split; [|split]]]].
  - intros Hk. unfold random_place_server, random_sample. fold n.
    destruct (Z.ltb_spec k 0); [done|].
    destruct (Z.ltb_spec n k); [done|lia].
  - intros -> Hn. split.
    + unfold topk_place_server, py_slice_to. simpl.
      destruct (sorted_desc (base_stations st)) as [|b l] eqn:Hs; [|done].
      apply (f_equal length) in Hs. rewrite sorted_desc_length in Hs.
      simpl in Hs. lia.
    + unfold random_place_server, random_sample. fold n.
      destruct (Z.ltb_spec n 0); [lia|]. simpl.
      destruct (Hsample (base_stations st) 0%nat) as [Hlen _]; [lia|].
      change (Z.to_nat 0) with 0%nat.
      destruct (sample_choice (base_stations st) 0) as [|? ?]; [|done]. simpl.
      subst n. destruct (base_stations st) as [|b l]; [simpl in Hn; lia|done].
  - intros Hk. unfold topk_place_server, py_slice_to.
    destruct (Z.ltb_spec k 0); [lia|]. destruct (Z.ltb_spec n 0); [lia|].
    rewrite !take_ge; [done| |]; rewrite sorted_desc_length; lia.
  - intros Hk. unfold topk_place_server, py_slice_to.
    destruct (Z.ltb_spec k 0); [|lia].
    destruct (Z.ltb_spec (Z.max 0 (n + k)) 0); [lia|].
    rewrite sorted_desc_length. fold n.
    by replace (Z.to_nat (Z.max 0 (n + k))) with (Z.to_nat (n + k)) by lia.
  - apply topk_place_server_total.
  - by apply random_place_server_total.
Qed.

(** ** Top-K seeds *)

(** C6: a Top-K placement stands on the first [k] base stations of the
    descending stable sort by workload: the sort permutes the input, is
    descending, and keeps the input order inside every class of equal
    workload; server [i] has the coordinates and the co-located
    base-station identifier of the [i]-th of them.  With four base
    stations of equal workload and [k = 2] these are the first two of the
    input. *)
Theorem topk_seeds_top_workloads st k st' :
  0 <= k →
  place_server TopK st k = Ok st' →
  let sorted := sorted_desc (base_stations st) in
  sorted ≡ₚ base_stations st ∧
  descending sorted ∧
  (∀ w, of_workload w sorted = of_workload w (base_stations st)) ∧
  ∃ servers,
    edge_servers st' = Some servers ∧
    EdgeServer.site <$> servers = BaseStation.site <$> take (Z.to_nat k) sorted ∧
    (∀ b0 b1 b2 b3,
       base_stations st = [b0; b1; b2; b3] →
       (BaseStation.workload b0 == BaseStation.workload b1)%Q →
       (BaseStation.workload b1 == BaseStation.workload b2)%Q →
       (BaseStation.workload b2 == BaseStation.workload b3)%Q →
       k = 2 →
       EdgeServer.site <$> servers = [BaseStation.site b0; BaseStation.site b1]).
Proof.
  intros Hk H sorted. subst sorted. simpl in H.
  apply topk_place_server_inv in H as (servers & Ha & ->).
  split; [apply sorted_desc_perm|]. split; [apply sorted_desc_descending|].
  split; [intros w; apply sorted_desc_stable|].
  apply assign_all_inv in Ha as (_ & _ & Hsite & _).
  rewrite seed_servers_site in Hsite. unfold py_slice_to in Hsite.
  destruct (Z.ltb_spec k 0); [lia|].
  exists servers. split; [done|]. split; [done|].
  intros b0 b1 b2 b3 Hl H01 H12 H23 ->. rewrite Hsite, Hl.
  rewrite (sorted_desc_equal_workloads (BaseStation.workload b0)); [done|].
  repeat constructor; lra.
Qed.

(** ** The k-means filter *)

Lemma kmeans_placement_has_no_idle_server st k st' :
  place_server KMeans st k = Ok st' →
  ∃ servers, edge_servers st' = Some servers ∧
             Forall (λ e, ¬ (EdgeServer.workload e == 0)%Q) servers.
Proof.
  simpl. intros (centroid & label & servers & _ & _ & ->)%kmeans_place_server_inv.
  eexists. split; [done|]. apply filter_nonzero_Forall.
Qed.

(** ** MIP preprocessing *)

(** C8 (the code at the failing input): asked for one edge server,
    [preprocess_problem] computes [cap = N] and calls [argpartition(N)] on
    a row of at most [N] entries, which numpy rejects: no neighbourhood is
    computed. *)
Theorem preprocess_problem_single_server st row rest :
  distances st = row :: rest →
  (length row ≤ length (base_stations st))%nat →
  preprocess_problem st 1 = Raise ValueError.
Proof.
  intros Hd Hlen. unfold preprocess_problem. simpl.
  rewrite Z.quot_1_r, Hd. simpl. unfold np_argpartition.
  destruct (Z.ltb_spec (Z.of_nat (length (base_stations st)))
                       (- Z.of_nat (length row))); [done|].
  destruct (Z.leb_spec (Z.of_nat (length row))
                       (Z.of_nat (length (base_stations st)))); [done|lia].
Qed.

Lemma take_nearest row (c : nat) :
  argpartition_contract → (c < length row)%nat →
  nearest_neighbourhood row c (take c (argpartition_order row c)).
Proof.
  intros Hc Hlt. destruct (Hc row c Hlt) as [Hperm Hord].
  set (p := argpartition_order row c) in *.
  assert (length p = length row) as Hlen by by rewrite Hperm, length_seq.
  assert (NoDup p) as Hnd by (rewrite Hperm; apply NoDup_seq).
  split; [|split; [|split]].
  - rewrite length_take. lia.
  - eapply sublist_NoDup; [done|apply sublist_take].
  - intros j Hj. apply (sublist_subseteq _ _ (sublist_take _ _)) in Hj.
    rewrite Hperm in Hj. apply elem_of_seq in Hj. lia.
  - intros j j' Hj Hj' Hout.
    apply list_elem_of_lookup in Hj as (i & Hi).
    apply lookup_take_Some in Hi as [Hi Hic].
    assert (j' ∈ p) as (i' & Hi')%list_elem_of_lookup.
    { rewrite Hperm. apply elem_of_seq. lia. }
    apply (Hord i i' j j'); try done; [lia|].
    destruct (decide (i' < c)%nat) as [Hlt'|]; [|lia].
    exfalso. apply Hout. apply list_elem_of_lookup. exists i'.
    apply lookup_take_Some. done.
Qed.

(** Below the row length the partition does what the comment in
    [preprocess_problem] says: every row gets the [cap] nearest
    positions. *)
Lemma preprocess_rows_nearest rows cap assign :
  argpartition_contract → 0 <= cap →
  preprocess_rows rows cap = Ok assign →
  Forall2 (λ row nb, nearest_neighbourhood row (Z.to_nat cap) nb) rows assign.
Proof.
  intros Hc Hcap. revert assign.
  induction rows as [|row rows IH]; intros assign H; simpl in H.
  - injection H as <-. constructor.
  - inv_bind H. inv_bind H. injection H as <-. constructor; [|by apply IH].
    unfold np_argpartition in Hr.
    destruct (Z.ltb_spec cap (- Z.of_nat (length row))); [done|].
    destruct (Z.leb_spec (Z.of_nat (length row)) cap); [done|]. simpl in Hr.
    destruct (Z.ltb_spec cap 0); [lia|]. injection Hr as <-.
    unfold py_slice_to. destruct (Z.ltb_spec cap 0); [lia|].
    apply take_nearest; [done|lia].
Qed.

Lemma preprocess_rows_total rows cap :
  0 <= cap → Forall (λ row, cap < Z.of_nat (length row)) rows →
  succeeds (preprocess_rows rows cap).
Proof.
  intros Hcap. induction 1 as [|row rows Hrow _ [assign IH]]; simpl.
  - by eexists.
  - unfold np_argpartition.
    destruct (Z.ltb_spec cap (- Z.of_nat (length row))); [lia|].
    destruct (Z.leb_spec (Z.of_nat (length row)) cap); [lia|]. simpl.
    rewrite IH. by eexists.
Qed.

(** ** One server per base station *)

Lemma elem_of_concat {A} (ls : list (list A)) (x : A) :
  x ∈ concat ls ↔ ∃ l, x ∈ l ∧ l ∈ ls.
Proof.
  induction ls as [|l0 ls IH]; simpl.
  - split; [by intros ?%elem_of_nil|]. by intros (l & _ & ?%elem_of_nil).
  - rewrite elem_of_app, IH. split.
    + intros [H | (l & Hx & Hl)]; [exists l0|exists l]; split; try done;
        [left|by right].
    + intros (l & Hx & Hl). apply elem_of_cons in Hl as [-> | Hl]; [by left|].
      right. by exists l.
Qed.

Lemma NoDup_concat_lookup {A} (ls : list (list A)) i i' l l' x :
  NoDup (concat ls) → ls !! i = Some l → ls !! i' = Some l' →
  x ∈ l → x ∈ l' → i = i'.
Proof.
  revert i i'. induction ls as [|l0 ls IH]; intros i i' Hnd Hi Hi' Hx Hx'.
  - by rewrite lookup_nil in Hi.
  - simpl in Hnd. apply NoDup_app in Hnd as (_ & Hdisj & Hnd).
    destruct i as [|i], i' as [|i']; simpl in Hi, Hi'.
    + done.
    + injection Hi as ->. exfalso. apply (Hdisj x Hx).
      apply elem_of_concat. exists l'. split; [done|].
      by eapply list_elem_of_lookup_2.
    + injection Hi' as ->. exfalso. apply (Hdisj x Hx').
      apply elem_of_concat. exists l. split; [done|].
      by eapply list_elem_of_lookup_2.
    + f_equal. by eapply IH.
Qed.

(** For distinct base stations [assigned_exactly_once] says what its name
    says: each base station is in the list of one server and of no other. *)
Lemma assigned_exactly_once_one_server servers bss b :
  assigned_exactly_once servers bss → NoDup bss → b ∈ bss →
  ∃ i e, servers !! i = Some e ∧ b ∈ EdgeServer.assigned_base_stations e ∧
    ∀ i' e', servers !! i' = Some e' →
      b ∈ EdgeServer.assigned_base_stations e' → i' = i.
Proof.
  unfold assigned_exactly_once, assignment. intros Hperm Hnd Hb.
  rewrite <- Hperm in Hnd, Hb.
  apply elem_of_concat in Hb as (l & Hbl & Hl).
  apply list_elem_of_lookup in Hl as (i & Hi).
  rewrite list_lookup_fmap in Hi.
  destruct (servers !! i) as [e|] eqn:He; [|done]. injection Hi as <-.
  exists i, e. repeat split; try done.
  intros i' e' He' Hb'.
  apply (NoDup_concat_lookup _ i' i (EdgeServer.assigned_base_stations e')
           (EdgeServer.assigned_base_stations e) b Hnd); [| |done|done].
  - by rewrite list_lookup_fmap, He'.
  - by rewrite list_lookup_fmap, He.
Qed.

End Properties.

(** * Further properties of the code *)

Section Coverage.
Context `{ext : Externals}.

(** ** The latency objective in closed form *)

Lemma latency_stations_inv d es assigned acc acc' :
  latency_stations d es assigned acc = Ok acc' →
  (acc'.1 == acc.1 + foldr (λ b a, (pair_delay d es b + a)%Q) 0%Q assigned)%Q ∧
  acc'.2 = acc.2 + Z.of_nat (length assigned) ∧
  Forall (λ b, succeeds (_distance_edge_server_base_station d es b)) assigned.
Proof.
  revert acc. induction assigned as [|b rest IH]; intros acc H; simpl in H.
  - injection H as <-. simpl. split; [lra|]. split; [lia|constructor].
  - inv_bind H. apply IH in H as (Ht & Hn & HF). simpl in Ht, Hn.
    split; [|split].
    + simpl. unfold pair_delay at 1. rewrite Hr. lra.
    + simpl length. lia.
    + constructor; [by exists r|done].
Qed.

Lemma assignment_cons e rest :
  assignment (e :: rest) = EdgeServer.assigned_base_stations e ++ assignment rest.
Proof. done. Qed.

Lemma latency_servers_inv d servers acc acc' :
  latency_servers d servers acc = Ok acc' →
  (acc'.1 == acc.1 + total_delay d servers)%Q ∧
  acc'.2 = acc.2 + Z.of_nat (length (assignment servers)) ∧
  Forall (λ e, Forall (λ b, succeeds (_distance_edge_server_base_station d e b))
                      (EdgeServer.assigned_base_stations e)) servers.
Proof.
  revert acc. induction servers as [|e rest IH]; intros acc H; simpl in H.
  - injection H as <-. simpl. split; [lra|]. split; [lia|constructor].
  - inv_bind H. apply latency_stations_inv in Hr as (Ht1 & Hn1 & HF1).
    apply IH in H as (Ht & Hn & HF).
    split; [|split].
    + simpl. lra.
    + rewrite assignment_cons, length_app. lia.
    + by constructor.
Qed.

Lemma latency_stations_total d es assigned acc :
  Forall (λ b, succeeds (_distance_edge_server_base_station d es b)) assigned →
  succeeds (latency_stations d es assigned acc).
Proof.
  intros HF. revert acc. induction HF as [|b rest [q Hq] _ IH]; intros acc; simpl.
  - by eexists.
  - rewrite Hq. simpl. apply IH.
Qed.

Lemma latency_servers_total d servers acc :
  Forall (λ e, Forall (λ b, succeeds (_distance_edge_server_base_station d e b))
                      (EdgeServer.assigned_base_stations e)) servers →
  succeeds (latency_servers d servers acc).
Proof.
  intros HF. revert acc. induction HF as [|e rest He _ IH]; intros acc; simpl.
  - by eexists.
  - destruct (latency_stations_total d e _ acc He) as [acc' ->]. simpl. apply IH.
Qed.



Lemma py_index_raises {A} (l : list A) i err :
  py_index l i = Raise err → err = IndexError.
Proof.
  unfold py_index. destruct (_ || _); [by intros [= <-]|].
  destruct (l !! _); [done|by intros [= <-]].
Qed.

Lemma distance_raises d e b err :
  _distance_edge_server_base_station d e b = Raise err → err = IndexError.
Proof.
  unfold _distance_edge_server_base_station.
  destruct (EdgeServer.base_station_id e) as [i|]; [|done].
  destruct (i =? 0); [done|].
  destruct (py_index d i) as [row|err'] eqn:Hrow; simpl.
  - apply py_index_raises.
  - intros [= <-]. by apply py_index_raises in Hrow.
Qed.

Lemma latency_stations_raises d es assigned acc err :
  latency_stations d es assigned acc = Raise err → err = IndexError.
Proof.
  revert acc. induction assigned as [|b rest IH]; intros acc; simpl; [done|].
  destruct (_distance_edge_server_base_station d es b) as [q|err'] eqn:Hd; simpl.
  - apply IH.
  - intros [= <-]. by apply distance_raises in Hd.
Qed.

Lemma latency_servers_raises d servers acc err :
  latency_servers d servers acc = Raise err → err = IndexError.
Proof.
  revert acc. induction servers as [|e rest IH]; intros acc; simpl; [done|].
  destruct (latency_stations d e _ acc) as [acc'|err'] eqn:Hs; simpl.
  - apply IH.
  - intros [= <-]. by apply latency_stations_raises in Hs.
Qed.

Lemma no_station_latency_total d servers acc :
  assignment servers = [] → latency_servers d servers acc = Ok acc.
Proof.
  revert acc. induction servers as [|e rest IH]; intros acc; [done|].
  rewrite assignment_cons. intros [He Hl]%app_eq_nil. simpl.
  rewrite He. simpl. by apply IH.
Qed.

Lemma zero_division_inv st servers :
  edge_servers st = Some servers →
  objective_latency st = Raise ZeroDivisionError →
  servers ≠ [] ∧ assignment servers = [].
Proof.
  unfold objective_latency. intros ->.
  destruct servers as [|e rest]; [done|]. intros H. split; [done|].
  destruct (latency_servers (distances st) (e :: rest) (0%Q, 0)) as [acc|err]
    eqn:Hacc; simpl in H.
  - apply latency_servers_inv in Hacc as (_ & Hn & _). simpl in Hn.
    destruct (Z.eqb_spec acc.2 0) as [Hz|]; [|done].
    destruct (assignment (e :: rest)); [done|]. simpl in Hn. lia.
  - apply latency_servers_raises in Hacc. congruence.
Qed.

(** X2: the latency objective fails with [ZeroDivisionError] exactly on
    a placement that has edge servers but no assigned base station. *)
Theorem objective_latency_no_station st servers :
  edge_servers st = Some servers →
  (objective_latency st = Raise ZeroDivisionError ↔
   servers ≠ [] ∧ assignment servers = []).
Proof.
  intros Hs. split; [by apply zero_division_inv|].
  unfold objective_latency. rewrite Hs. intros [Hne Hnil].
  destruct servers as [|e rest]; [done|].
  by rewrite (no_station_latency_total _ _ _ Hnil).
Qed.

(** ** Placements of the greedy strategies *)

Lemma assign_one_nearest d servers bs servers' :
  assign_one d servers bs = Ok servers' →
  ∃ j, nearest_server d servers j bs ∧
       servers' = alter (EdgeServer.assign bs) j servers.
Proof.
  unfold assign_one. intros H. inv_bind H.
  destruct r as [m' [j|]]; simpl in H; [|done]. injection H as <-.
  apply closest_loop_spec in Hr
    as (_ & Hall & [[? _] | (i & e & Hj & Hi & He & Hlt & Hfirst)]); [done|].
  injection Hj as ->. simpl. exists i. split; [|done].
  exists e, m'. split; [done|]. split; [done|]. split; [done|].
  intros i' e' Hi'. destruct (Hall _ _ Hi') as (q & Hq & Hle).
  exists q. split; [done|]. split; [done|].
  intros Hl. destruct (Hfirst _ _ Hl Hi') as (q' & Hq' & Hlt').
  rewrite Hq in Hq'. by injection Hq' as ->.
Qed.

Lemma lookup_same_site (l l' : list EdgeServer.t) i e :
  EdgeServer.site <$> l = EdgeServer.site <$> l' →
  l !! i = Some e →
  ∃ e', l' !! i = Some e' ∧ EdgeServer.site e' = EdgeServer.site e.
Proof.
  intros Hs Hi. apply (f_equal (.!! i)) in Hs.
  rewrite !list_lookup_fmap, Hi in Hs.
  destruct (l' !! i) as [e'|]; [|done]. exists e'. split; [done|].
  simpl in Hs. congruence.
Qed.

Lemma nearest_server_sites d servers servers' j b :
  EdgeServer.site <$> servers' = EdgeServer.site <$> servers →
  nearest_server d servers j b → nearest_server d servers' j b.
Proof.
  intros Hs (e & q & Hj & Hq & Hlt & Hmin).
  destruct (lookup_same_site servers servers' j e) as (e1 & Hj1 & Hsite1);
    [done|done|].
  exists e1, q. split; [done|].
  split; [by rewrite (distance_site d e1 e)|]. split; [done|].
  intros i e' Hi.
  destruct (lookup_same_site servers' servers i e' Hs Hi) as (e0 & Hi0 & Hsite0).
  destruct (Hmin i e0 Hi0) as (q' & Hq' & Hle).
  exists q'. split; [by rewrite (distance_site d e' e0)|done].
Qed.

Lemma assign_all_nearest d servers stations servers' :
  placed_nearest d servers →
  assign_all d servers stations = Ok servers' →
  placed_nearest d servers'.
Proof.
  revert servers. induction stations as [|bs rest IH]; intros servers Hinv H;
    simpl in H.
  - by injection H as <-.
  - inv_bind H. apply assign_one_nearest in Hr as (j & Hnear & ->).
    eapply IH; [|exact H]. intros j' e' b Hj' Hb.
    apply (nearest_server_sites d servers); [by rewrite site_alter|].
    destruct (decide (j' = j)) as [->|Hne].
    + rewrite list_lookup_alter_eq in Hj'.
      destruct Hnear as (e & q & Hj & Hq). rewrite Hj in Hj'.
      injection Hj' as <-. simpl in Hb.
      apply elem_of_app in Hb as [Hb | ->%list_elem_of_singleton];
        [by eapply Hinv|by exists e, q].
    + rewrite list_lookup_alter_ne in Hj' by done. by eapply Hinv.
Qed.

Lemma seed_servers_placed d seeds : placed_nearest d (seed_servers seeds).
Proof.
  intros j e b Hj Hb. unfold seed_servers in Hj. rewrite list_lookup_imap in Hj.
  destruct (seeds !! j); [|done]. injection Hj as <-. by apply elem_of_nil in Hb.
Qed.


(** What the two greedy strategies have in common. *)
Lemma greedy_place_server_inv s st k st' :
  s = TopK ∨ s = Random →
  place_server s st k = Ok st' →
  ∃ seeds stations servers,
    stations ≡ₚ base_stations st ∧
    assign_all (distances st) (seed_servers seeds) stations = Ok servers ∧
    st' = set_edge_servers st servers.
Proof.
  intros [-> | ->]; simpl; intros H.
  - apply topk_place_server_inv in H as (servers & Ha & ->).
    eexists _, _, servers. split; [apply sorted_desc_perm|done].
  - apply random_place_server_inv in H as (seeds & servers & _ & Ha & ->).
    by exists seeds, (base_stations st), servers.
Qed.

(** X3: in a placement returned by Top-K or Random every base station
    is in the list of the first edge server at minimal distance from it,
    and that distance is below the sentinel [1e10]. *)
Theorem greedy_placement_nearest s st k st' servers :
  s = TopK ∨ s = Random →
  place_server s st k = Ok st' →
  edge_servers st' = Some servers →
  ∀ j e b, servers !! j = Some e →
    b ∈ EdgeServer.assigned_base_stations e →
    ∃ q, _distance_edge_server_base_station (distances st) e b = Ok q ∧
         (q < sentinel)%Q ∧
         ∀ i e', servers !! i = Some e' →
           ∃ q', _distance_edge_server_base_station (distances st) e' b = Ok q' ∧
                 (q <= q')%Q ∧ ((i < j)%nat → (q < q')%Q).
Proof.
  intros Hs H Hsrv j e b Hj Hb.
  apply greedy_place_server_inv in H as (seeds & stations & srv & _ & Ha & ->);
    [|done].
  injection Hsrv as ->.
  apply assign_all_nearest in Ha; [|apply seed_servers_placed].
  destruct (Ha j e b Hj Hb) as (e0 & q & Hj0 & Hq & Hlt & Hmin).
  rewrite Hj in Hj0. injection Hj0 as <-. by exists q.
Qed.



(** ** Identifiers and number of the edge servers *)

Lemma imap_ids {A} (f : nat → A → EdgeServer.t) (l : list A) (n : nat) :
  (∀ i a, EdgeServer.id (f i a) = Z.of_nat (n + i)) →
  EdgeServer.id <$> imap f l = Z.of_nat <$> seq n (length l).
Proof.
  revert f n. induction l as [|a l IH]; intros f n Hf; [done|].
  rewrite imap_cons. simpl. rewrite Hf, Nat.add_0_r. f_equal.
  apply IH. intros i b. simpl. rewrite Hf. f_equal. lia.
Qed.

Lemma label_loop_sites bss servers label i0 servers' :
  label_loop bss servers label i0 = Ok servers' →
  EdgeServer.id <$> servers' = EdgeServer.id <$> servers ∧
  EdgeServer.site <$> servers' = EdgeServer.site <$> servers.
Proof.
  revert servers i0.
  induction label as [|es rest IH]; intros servers i0 H; simpl in H.
  - by injection H as <-.
  - destruct (servers !! es); [|done]. destruct (bss !! i0); [|done].
    apply IH in H as [Hid Hsite]. by rewrite id_alter in Hid; rewrite site_alter in Hsite.
Qed.

Lemma List_filter_sublist {A} (f : A → bool) (l : list A) :
  List.filter f l `sublist_of` l.
Proof.
  induction l as [|x l IH]; simpl; [done|].
  destruct (f x); [by apply sublist_skip|by apply sublist_cons].
Qed.

(** X5: the identifiers of the edge servers of a placement are pairwise
    distinct; Top-K and Random number their servers [0, 1, ...] in list
    order (k-means may leave gaps where it dropped a server). *)
Theorem placement_server_ids s st k st' servers :
  s = KMeans ∨ s = TopK ∨ s = Random →
  place_server s st k = Ok st' →
  edge_servers st' = Some servers →
  NoDup (EdgeServer.id <$> servers) ∧
  (s ≠ KMeans →
   EdgeServer.id <$> servers = Z.of_nat <$> seq 0 (length servers)).
Proof.
  intros [-> | Hs] H Hsrv.
  - simpl in H.
    apply kmeans_place_server_inv in H as (centroid & label & srv & _ & Hl & ->).
    injection Hsrv as <-. split; [|done].
    apply label_loop_sites in Hl as [Hid _].
    eapply sublist_NoDup;
      [|apply fmap_sublist, (List_filter_sublist nonzero_workload srv)].
    rewrite Hid. unfold centroid_servers. rewrite (imap_ids _ _ 0%nat); [|done].
    apply NoDup_fmap_2; [apply _|apply NoDup_seq].
  - assert (EdgeServer.id <$> servers = Z.of_nat <$> seq 0 (length servers)) as Hid.
    { apply greedy_place_server_inv in H as (seeds & stations & srv & _ & Ha & ->);
        [|done].
      injection Hsrv as <-. apply assign_all_inv in Ha as (_ & _ & _ & Hid).
      rewrite Hid. unfold seed_servers. rewrite (imap_ids _ _ 0%nat); [|done].
      apply (f_equal length) in Hid. rewrite !length_fmap in Hid.
      unfold seed_servers in Hid. rewrite length_imap in Hid. by rewrite Hid. }
    split; [|done]. rewrite Hid. apply NoDup_fmap_2; [apply _|apply NoDup_seq].
Qed.

(** X6: Top-K builds exactly [min k n] edge servers for a count
    [k >= 0] and [max 0 (n + k)] for a negative one, [n] being the number
    of base stations. *)
Theorem topk_server_count st k st' servers :
  place_server TopK st k = Ok st' →
  edge_servers st' = Some servers →
  let n := Z.of_nat (length (base_stations st)) in
  Z.of_nat (length servers) = if k <? 0 then Z.max 0 (n + k) else Z.min k n.
Proof.
  simpl. intros (srv & Ha & ->)%topk_place_server_inv [= <-].
  apply assign_all_inv in Ha as (_ & _ & Hsite & _).
  apply (f_equal length) in Hsite. rewrite seed_servers_site in Hsite.
  rewrite !length_fmap in Hsite. rewrite Hsite. unfold py_slice_to.
  destruct (Z.ltb_spec k 0); rewrite length_take, sorted_desc_length; lia.
Qed.

(** X7: a placement returned by Random has exactly [k] edge servers,
    so [0 <= k <= n], each standing at a base station of the input drawn
    by [random.sample]. *)
Theorem random_servers st k st' servers :
  sample_draws_members →
  place_server Random st k = Ok st' →
  edge_servers st' = Some servers →
  0 <= k <= Z.of_nat (length (base_stations st)) ∧
  Z.of_nat (length servers) = k ∧
  ∃ seeds, seeds ⊆ base_stations st ∧
           EdgeServer.site <$> servers = BaseStation.site <$> seeds.
Proof.
  simpl. intros Hsample (seeds & srv & Hs & Ha & ->)%random_place_server_inv [= <-].
  unfold random_sample in Hs.
  destruct (Z.ltb_spec k 0); [done|].
  destruct (Z.ltb_spec (Z.of_nat (length (base_stations st))) k); [done|].
  injection Hs as <-.
  destruct (Hsample (base_stations st) (Z.to_nat k)) as [Hlen Hsub]; [lia|].
  apply assign_all_inv in Ha as (_ & _ & Hsite & _).
  rewrite seed_servers_site in Hsite.
  split; [lia|]. split.
  - apply (f_equal length) in Hsite. rewrite !length_fmap in Hsite. lia.
  - by eexists.
Qed.

(** X8: the seeds of Top-K carry the largest workloads: the base
    stations split into the seeds, where the edge servers stand, and the
    others, and no other base station has a larger workload than a seed. *)
Theorem topk_seeds_dominate st k st' servers :
  0 <= k →
  place_server TopK st k = Ok st' →
  edge_servers st' = Some servers →
  ∃ seeds others,
    seeds ++ others ≡ₚ base_stations st ∧
    EdgeServer.site <$> servers = BaseStation.site <$> seeds ∧
    ∀ a b, a ∈ seeds → b ∈ others →
      (BaseStation.workload b <= BaseStation.workload a)%Q.
Proof.
  simpl. intros Hk (srv & Ha & ->)%topk_place_server_inv [= <-].
  apply assign_all_inv in Ha as (_ & _ & Hsite & _).
  rewrite seed_servers_site in Hsite. unfold py_slice_to in Hsite.
  destruct (Z.ltb_spec k 0); [lia|].
  exists (take (Z.to_nat k) (sorted_desc (base_stations st))),
         (drop (Z.to_nat k) (sorted_desc (base_stations st))).
  split; [by rewrite take_drop, sorted_desc_perm|]. split; [done|].
  intros a b (i & Hi)%list_elem_of_lookup (j & Hj)%list_elem_of_lookup.
  apply lookup_take_Some in Hi as [Hi Hlt]. rewrite lookup_drop in Hj.
  apply (sorted_desc_descending (base_stations st) i (Z.to_nat k + j)%nat a b);
    [lia|done|done].
Qed.

(** ** The objectives after a greedy placement *)

Lemma placed_nearest_distances d servers :
  placed_nearest d servers →
  Forall (λ e, Forall (λ b, succeeds (_distance_edge_server_base_station d e b))
                      (EdgeServer.assigned_base_stations e)) servers.
Proof.
  intros H. apply Forall_lookup. intros j e Hj. apply Forall_forall. intros b Hb.
  destruct (H j e b Hj Hb) as (e0 & q & Hj0 & Hq & _).
  rewrite Hj in Hj0. injection Hj0 as <-. by exists q.
Qed.

Lemma greedy_placement_facts s st k st' :
  s = TopK ∨ s = Random →
  place_server s st k = Ok st' →
  ∃ servers,
    edge_servers st' = Some servers ∧ distances st' = distances st ∧
    placed_nearest (distances st) servers ∧
    assignment servers ≡ₚ base_stations st.
Proof.
  intros Hs H.
  apply greedy_place_server_inv in H as (seeds & stations & srv & Hp & Ha & ->);
    [|done].
  exists srv. split; [done|]. split; [done|]. split.
  - eapply assign_all_nearest; [apply seed_servers_placed|exact Ha].
  - apply assign_all_inv in Ha as (Hperm & _).
    destruct (seed_servers_fresh seeds) as (Hnil & _).
    by rewrite Hperm, Hnil, Hp.
Qed.

(** X9: after Top-K or Random has returned a placement of at least one
    base station, both objectives return a value: no assertion fails, no
    distance is missing and the divisor is not zero. *)
Theorem greedy_objectives_return np_std s st k st' :
  s = TopK ∨ s = Random →
  place_server s st k = Ok st' →
  base_stations st ≠ [] →
  succeeds (objective_latency st') ∧ succeeds (objective_workload np_std st').
Proof.
  intros Hs H Hne.
  apply greedy_placement_facts in H as (servers & Hsrv & Hd & Hnear & Hperm);
    [|done].
  assert (servers ≠ []) as Hsne.
  { intros ->. apply Hne, Permutation_nil_r. by symmetry. }
  unfold objective_latency, objective_workload. rewrite Hsrv, Hd.
  destruct servers as [|e rest]; [done|]. split; [|by eexists].
  destruct (latency_servers_total (distances st) (e :: rest) (0%Q, 0))
    as [acc Hacc]; [by apply placed_nearest_distances|].
  rewrite Hacc. simpl. apply latency_servers_inv in Hacc as (_ & Hn & _).
  rewrite Hperm in Hn. simpl in Hn.
  destruct (Z.eqb_spec acc.2 0) as [Hz|]; [|by eexists].
  destruct (base_stations st); [done|]. simpl in Hn. lia.
Qed.

(** ** The greedy assignment is the best one for its sites *)












(** ** Placements of k-means *)

Lemma centroid_servers_site centroid :
  EdgeServer.site <$> centroid_servers centroid
  = (λ row : Q * Q, (row.1, row.2, None)) <$> centroid.
Proof. by apply imap_site. Qed.

Lemma elem_of_List_filter {A} (f : A → bool) (l : list A) x :
  x ∈ List.filter f l ↔ x ∈ l ∧ f x = true.
Proof. rewrite !list_elem_of_In. apply filter_In. Qed.

(** X11: every edge server of a placement returned by k-means has a
    workload other than zero, at least one assigned base station, and no
    co-located base station. *)
Theorem kmeans_servers_loaded st k st' servers :
  place_server KMeans st k = Ok st' →
  edge_servers st' = Some servers →
  Forall (λ e, ¬ (EdgeServer.workload e == 0)%Q ∧
               EdgeServer.assigned_base_stations e ≠ [] ∧
               EdgeServer.base_station_id e = None) servers.
Proof.
  simpl. intros (centroid & label & srv & _ & Hl & ->)%kmeans_place_server_inv
    [= <-].
  apply Forall_forall. intros e [He Hf]%elem_of_List_filter.
  assert (¬ (EdgeServer.workload e == 0)%Q) as Hw.
  { intros Hz%Qeq_bool_iff. unfold nonzero_workload in Hf. by rewrite Hz in Hf. }
  split; [done|]. split.
  - apply label_loop_inv in Hl as (_ & _ & Hsound).
    specialize (Hsound (proj2 (proj2 (centroid_servers_fresh centroid)))).
    pose proof (proj1 (Forall_forall _ _) Hsound e He) as Hs.
    unfold workload_sound in Hs. intros Hnil. rewrite Hnil in Hs. done.
  - apply label_loop_sites in Hl as [_ Hsite].
    rewrite centroid_servers_site in Hsite.
    apply (list_elem_of_fmap_2 EdgeServer.site) in He.
    rewrite Hsite in He. apply list_elem_of_fmap in He as (row & Hrow & _).
    unfold EdgeServer.site in Hrow. congruence.
Qed.

Lemma kmeans_placement_facts st k st' :
  place_server KMeans st k = Ok st' →
  ∃ servers,
    edge_servers st' = Some servers ∧
    Forall (λ e, EdgeServer.assigned_base_stations e ≠ [] ∧
                 EdgeServer.base_station_id e = None) servers.
Proof.
  simpl. intros (centroid & label & srv & _ & Hl & ->)%kmeans_place_server_inv.
  eexists. split; [done|].
  apply Forall_forall. intros e [He Hf]%elem_of_List_filter. split.
  - apply label_loop_inv in Hl as (_ & _ & Hsound).
    specialize (Hsound (proj2 (proj2 (centroid_servers_fresh centroid)))).
    pose proof (proj1 (Forall_forall _ _) Hsound e He) as Hs.
    unfold workload_sound in Hs. intros Hnil. rewrite Hnil in Hs. simpl in Hs.
    apply Qeq_bool_iff in Hs. unfold nonzero_workload in Hf. by rewrite Hs in Hf.
  - apply label_loop_sites in Hl as [_ Hsite].
    rewrite centroid_servers_site in Hsite.
    apply (list_elem_of_fmap_2 EdgeServer.site) in He.
    rewrite Hsite in He. apply list_elem_of_fmap in He as (row & Hrow & _).
    unfold EdgeServer.site in Hrow. congruence.
Qed.

(** X12: after k-means has returned, the two objectives either both
    fail at their assertion, which happens exactly when the filter left no
    edge server, or both return a value; the latency objective then never
    reads the distance table and never divides by zero. *)
Theorem kmeans_objectives np_std st k st' servers :
  place_server KMeans st k = Ok st' →
  edge_servers st' = Some servers →
  (servers = [] ∧
   objective_latency st' = Raise AssertionError ∧
   objective_workload np_std st' = Raise AssertionError) ∨
  (servers ≠ [] ∧
   succeeds (objective_latency st') ∧
   succeeds (objective_workload np_std st')).
Proof.
  intros (srv & Hsrv & HF)%kmeans_placement_facts Hs.
  rewrite Hs in Hsrv. injection Hsrv as <-.
  unfold objective_latency, objective_workload. rewrite Hs.
  destruct servers as [|e rest]; [by left|right].
  split; [done|]. split; [|by eexists].
  destruct (latency_servers_total (distances st') (e :: rest) (0%Q, 0))
    as [acc Hacc].
  { eapply Forall_impl; [exact HF|]. simpl. intros e' [_ Hnone].
    apply Forall_forall. intros b _. eexists.
    by apply distance_not_colocated. }
  rewrite Hacc. simpl. apply latency_servers_inv in Hacc as (_ & Hn & _).
  rewrite assignment_cons, length_app in Hn. simpl in Hn.
  apply Forall_cons in HF as [[Hne _] _].
  destruct (EdgeServer.assigned_base_stations e); [done|]. simpl in Hn.
  destruct (Z.eqb_spec acc.2 0); [lia|by eexists].
Qed.

Lemma Forall_imap_all {A B} (P : B → Prop) (f : nat → A → B) (l : list A) :
  (∀ i a, P (f i a)) → Forall P (imap f l).
Proof.
  revert f. induction l as [|a l IH]; intros f Hf; [constructor|].
  rewrite imap_cons. constructor; [done|]. apply IH. intros i b. apply Hf.
Qed.

Lemma label_loop_idle bss servers label i0 servers' :
  Forall (λ b, (BaseStation.workload b == 0)%Q) bss →
  Forall (λ e, (EdgeServer.workload e == 0)%Q) servers →
  label_loop bss servers label i0 = Ok servers' →
  Forall (λ e, (EdgeServer.workload e == 0)%Q) servers'.
Proof.
  intros Hbss. revert servers i0.
  induction label as [|es rest IH]; intros servers i0 HF H; simpl in H.
  - by injection H as <-.
  - destruct (servers !! es); [|done].
    destruct (bss !! i0) as [b|] eqn:Hb; [|done].
    eapply IH; [|exact H]. apply Forall_alter; [done|].
    intros e _ He. simpl.
    pose proof (proj1 (Forall_lookup _ _) Hbss i0 b Hb) as Hz. simpl in Hz. lra.
Qed.

(** X13: when no base station carries workload, k-means returns an
    empty placement: every edge server is dropped by the filter, so every
    base station is left without a server. *)
Theorem kmeans_without_workload st k st' :
  Forall (λ b, (BaseStation.workload b == 0)%Q) (base_stations st) →
  place_server KMeans st k = Ok st' →
  edge_servers st' = Some [].
Proof.
  simpl. intros Hz (centroid & label & srv & _ & Hl & ->)%kmeans_place_server_inv.
  simpl. f_equal. apply label_loop_idle in Hl; [|done|].
  - induction Hl as [|e l He _ IH]; simpl; [done|].
    unfold nonzero_workload at 1. apply Qeq_bool_iff in He. by rewrite He.
  - by apply Forall_imap_all.
Qed.

Lemma label_loop_succeeds bss servers label i0 :
  succeeds (label_loop bss servers label i0) ↔
  Forall (λ es, (es < length servers)%nat) label ∧
  (label = [] ∨ (i0 + length label ≤ length bss)%nat).
Proof.
  revert servers i0. induction label as [|es rest IH]; intros servers i0; simpl.
  - split; [intros _; split; [constructor|by left]|by eexists].
  - destruct (servers !! es) as [e|] eqn:He.
    + destruct (bss !! i0) as [b|] eqn:Hb.
      * rewrite IH, length_alter.
        apply lookup_lt_Some in He, Hb. split.
        -- intros [HF Hlen]. split; [by constructor|]. right.
           destruct Hlen as [-> | Hlen]; simpl; lia.
        -- intros [[_ HF]%Forall_cons Hlen]. split; [done|].
           destruct Hlen as [? | Hlen]; [done|]. right. simpl in Hlen. lia.
      * apply lookup_ge_None in Hb. split; [by intros [? ?]|].
        intros [_ [? | Hlen]]; [done|]. simpl in Hlen. lia.
    + apply lookup_ge_None in He. split; [by intros [? ?]|].
      intros [[Hlt _]%Forall_cons _]. lia.
Qed.

Lemma label_loop_raises bss servers label i0 err :
  label_loop bss servers label i0 = Raise err → err = IndexError.
Proof.
  revert servers i0. induction label as [|es rest IH]; intros servers i0; simpl;
    [done|].
  destruct (servers !! es); [|by intros [= <-]].
  destruct (bss !! i0); [apply IH|by intros [= <-]].
Qed.

(** X14: once [kmeans2] has returned, k-means returns a placement
    exactly when every label indexes a centroid and there are no more
    labels than base stations; otherwise it fails with [IndexError]. *)
Theorem kmeans_place_server_succeeds st k centroid label :
  kmeans2 (map (λ x, (BaseStation.latitude x, BaseStation.longitude x))
               (base_stations st)) k = Ok (centroid, label) →
  (succeeds (place_server KMeans st k) ↔
   Forall (λ es, (es < length centroid)%nat) label ∧
   (length label ≤ length (base_stations st))%nat) ∧
  (¬ succeeds (place_server KMeans st k) →
   place_server KMeans st k = Raise IndexError).
Proof.
  intros Hk. simpl. unfold kmeans_place_server. rewrite Hk. simpl.
  pose proof (label_loop_succeeds (base_stations st) (centroid_servers centroid)
                label 0) as Hiff.
  unfold centroid_servers in Hiff at 2. rewrite length_imap in Hiff.
  destruct (label_loop (base_stations st) (centroid_servers centroid) label 0)
    as [srv|err] eqn:Hl; simpl.
  - split; [|intros Hn; exfalso; apply Hn; by eexists].
    split; [intros _|by eexists].
    destruct Hiff as [[HF Hlen] _]; [by eexists|]. split; [done|].
    destruct Hlen as [-> | Hlen]; simpl in *; lia.
  - split; [|intros _; f_equal; by eapply label_loop_raises].
    split; [by intros [? ?]|]. intros [HF Hlen].
    destruct Hiff as [_ [srv Hsrv]]; [|done]. split; [done|]. right. lia.
Qed.

(** ** MIP preprocessing *)

Lemma preprocess_rows_inv rows cap assign :
  preprocess_rows rows cap = Ok assign →
  Forall2 (λ row nb,
             - Z.of_nat (length row) <= cap < Z.of_nat (length row) ∧
             nb = py_slice_to
                    (argpartition_order row (normalised cap (length row))) cap)
          rows assign.
Proof.
  revert assign. induction rows as [|row rows IH]; intros assign H; simpl in H.
  - injection H as <-. constructor.
  - inv_bind H. inv_bind H. injection H as <-. constructor; [|by apply IH].
    unfold np_argpartition in Hr.
    destruct (Z.ltb_spec cap (- Z.of_nat (length row))); [done|].
    destruct (Z.leb_spec (Z.of_nat (length row)) cap); [done|].
    simpl in Hr. injection Hr as <-. split; [lia|done].
Qed.



(** X15: whenever [preprocess_problem] computes its neighbourhoods,
    the one of a row holds the nearest positions of that row, as many as
    the normalised [kth]: [cap] itself for [cap >= 0], the row length plus
    [cap] for the negative [cap] a negative [k] produces ([argpartition]
    fulfilling its documented contract). *)
Theorem preprocess_problem_nearest st k assign :
  argpartition_contract →
  preprocess_problem st k = Ok assign →
  let cap := Z.of_nat (length (base_stations st)) ÷ k in
  Forall2 (λ row nb, nearest_neighbourhood row (normalised cap (length row)) nb)
          (distances st) assign.
Proof.
  intros Hc H. unfold preprocess_problem in H.
  destruct (k =? 0); [done|]. simpl.
  apply preprocess_rows_inv in H.
  eapply Forall2_impl; [exact H|]. simpl. intros row nb [Hcap ->].
  set (cap := Z.of_nat (length (base_stations st)) ÷ k) in *.
  assert (normalised cap (length row) < length row)%nat as Hlt.
  { unfold normalised. destruct (Z.ltb_spec cap 0); lia. }
  assert (py_slice_to (argpartition_order row (normalised cap (length row))) cap
          = take (normalised cap (length row))
                 (argpartition_order row (normalised cap (length row)))) as ->.
  { unfold py_slice_to, normalised.
    destruct (Z.ltb_spec cap 0); [|done].
    destruct (Hc row (Z.to_nat (cap + Z.of_nat (length row)))) as [Hperm _];
      [lia|].
    apply Permutation_length in Hperm. rewrite length_seq in Hperm.
    rewrite Hperm. f_equal. lia. }
  by apply take_nearest.
Qed.

(** X16: for a count [k >= 2] and a distance table of [n >= 1] rows of
    [n] entries, [preprocess_problem] returns, and the neighbourhood of
    every base station holds its [n / k] (rounded down) nearest base
    stations. *)
Theorem preprocess_problem_floor st k :
  argpartition_contract →
  2 <= k →
  base_stations st ≠ [] →
  Forall (λ row, length row = length (base_stations st)) (distances st) →
  ∃ assign,
    preprocess_problem st k = Ok assign ∧
    Forall2 (λ row nb,
               nearest_neighbourhood row
                 (Z.to_nat (Z.of_nat (length (base_stations st)) / k)) nb)
            (distances st) assign.
Proof.
  intros Hc Hk Hne Hrows. unfold preprocess_problem.
  destruct (Z.eqb_spec k 0); [lia|].
  assert (0 < Z.of_nat (length (base_stations st))) as Hn.
  { destruct (base_stations st); [done|]. simpl. lia. }
  rewrite Z.quot_div_nonneg by lia.
  pose proof (Z.div_pos (Z.of_nat (length (base_stations st))) k) as Hpos.
  pose proof (Z.div_lt (Z.of_nat (length (base_stations st))) k) as Hlt.
  destruct (preprocess_rows_total (distances st)
              (Z.of_nat (length (base_stations st)) / k)) as [assign Ha].
  - lia.
  - eapply Forall_impl; [exact Hrows|]. simpl. intros row ->. lia.
  - exists assign. split; [done|].
    apply (preprocess_rows_nearest _ _ _ Hc); [lia|done].
Qed.


Lemma call_mip st k : call MIP st k = st.
Proof.
  unfold call. destruct (place_server MIP st k) as [st'|] eqn:H; [|done].
  by apply mip_place_server_inv in H.
Qed.

(** X18: the MIP strategy never builds a placement: whatever calls of
    its [place_server] are made on a fresh object, and whether they return
    or raise, the object stays as constructed and both objectives still
    fail at their assertion. *)
Theorem mip_never_places np_std bss d (ks : list Z) :
  foldl (call MIP) (init bss d) ks = init bss d ∧
  objective_latency (foldl (call MIP) (init bss d) ks) = Raise AssertionError ∧
  objective_workload np_std (foldl (call MIP) (init bss d) ks)
  = Raise AssertionError.
Proof.
  assert (foldl (call MIP) (init bss d) ks = init bss d) as ->; [|done].
  generalize (init bss d). induction ks as [|k ks IH]; intros st; [done|].
  simpl. by rewrite call_mip.
Qed.

(** ** Bounds of the distance table *)

(** ** Bounds of the distance table *)

Lemma py_index_succeeds {A} (l : list A) (i : Z) :
  succeeds (py_index l i) ↔
  - Z.of_nat (length l) <= i < Z.of_nat (length l).
Proof.
  unfold py_index. cbv zeta.
  set (n := Z.of_nat (length l)). set (j := if i <? 0 then i + n else i).
  assert (0 <= j < n ↔ - n <= i < n) as Hj.
  { subst j. destruct (Z.ltb_spec i 0); lia. }
  rewrite <- Hj.
  destruct (Z.ltb_spec j 0); simpl; [split; [by intros [? ?]|lia]|].
  destruct (Z.leb_spec n j); simpl; [split; [by intros [? ?]|lia]|].
  destruct (l !! Z.to_nat j) eqn:Hl.
  - split; [lia|by eexists].
  - apply lookup_ge_None in Hl. subst n. lia.
Qed.

(** X19: for an edge server co-located with a base station of
    identifier [i] other than [0], the distance is available exactly when
    [i] indexes a row of the table (from either end, as Python indices do)
    and the identifier of the base station indexes that row; otherwise
    the call raises [IndexError]. *)
Theorem distance_table_bounds d es bs i :
  EdgeServer.base_station_id es = Some i → i ≠ 0 →
  (succeeds (_distance_edge_server_base_station d es bs) ↔
   - Z.of_nat (length d) <= i < Z.of_nat (length d) ∧
   ∃ row, py_index d i = Ok row ∧
          - Z.of_nat (length row) <= BaseStation.id bs < Z.of_nat (length row)) ∧
  (¬ succeeds (_distance_edge_server_base_station d es bs) →
   _distance_edge_server_base_station d es bs = Raise IndexError).
Proof.
  intros Hi Hne. rewrite (distance_colocated d es bs i Hi Hne).
  rewrite <- (py_index_succeeds d i). split.
  - destruct (py_index d i) as [row|err] eqn:Hrow; simpl.
    + rewrite (py_index_succeeds row). split.
      * intros Hb. split; [by eexists|]. by exists row.
      * by intros [_ (row' & [= <-] & Hb)].
    + split; [by intros [? ?]|]. by intros [[? ?] _].
  - intros Hn.
    destruct (row ← py_index d i; py_index row (BaseStation.id bs))
      as [q|err] eqn:H; [exfalso; apply Hn; by eexists|]. f_equal.
    destruct (py_index d i) as [row|err'] eqn:Hrow; simpl in H.
    + by eapply py_index_raises.
    + injection H as <-. by eapply py_index_raises.
Qed.

(** ** Failures of the greedy strategies *)

Lemma closest_loop_raises d bs servers j m c err :
  closest_loop d bs servers j m c = Raise err → err = IndexError.
Proof.
  revert j m c. induction servers as [|e rest IH]; intros j m c; simpl; [done|].
  destruct (_distance_edge_server_base_station d e bs) as [q|err'] eqn:Hd; simpl.
  - destruct (Qltb q m); apply IH.
  - intros [= <-]. by eapply distance_raises.
Qed.

Lemma assign_all_raises d servers stations err :
  assign_all d servers stations = Raise err →
  err = AttributeError ∨ err = IndexError.
Proof.
  revert servers. induction stations as [|bs rest IH]; intros servers; simpl;
    [done|].
  unfold assign_one.
  destruct (closest_loop d bs servers 0 sentinel None) as [[m [j|]]|err']
    eqn:Hc; simpl.
  - apply IH.
  - intros [= <-]. by left.
  - intros [= <-]. right. by eapply closest_loop_raises.
Qed.

(** X20: the exceptions of the greedy strategies: Top-K fails only with
    [AttributeError] (a base station without a server below the sentinel)
    or [IndexError] (a distance missing from the table); Random fails in
    addition with [ValueError], which it does exactly when the count is
    negative or exceeds the number of base stations. *)
Theorem greedy_failures st k :
  (∀ err, place_server TopK st k = Raise err →
     err = AttributeError ∨ err = IndexError) ∧
  (∀ err, place_server Random st k = Raise err →
     err = ValueError ∨ err = AttributeError ∨ err = IndexError) ∧
  (place_server Random st k = Raise ValueError ↔
   k < 0 ∨ Z.of_nat (length (base_stations st)) < k).
Proof.
  simpl. unfold topk_place_server, random_place_server, random_sample.
  split; [|split].
  - intros err.
    destruct (assign_all _ _ _) as [srv|err'] eqn:Ha; simpl; [done|].
    intros [= <-]. by eapply assign_all_raises.
  - intros err. destruct (_ || _); simpl; [intros [= <-]; by left|].
    destruct (assign_all _ _ _) as [srv|err'] eqn:Ha; simpl; [done|].
    intros [= <-]. right. by eapply assign_all_raises.
  - destruct (Z.ltb_spec k 0); simpl; [split; [by left|done]|].
    destruct (Z.ltb_spec (Z.of_nat (length (base_stations st))) k); simpl;
      [split; [by right|done]|].
    split; [|lia].
    destruct (assign_all _ _ _) as [srv|err'] eqn:Ha; simpl; [done|].
    intros [= ->]. by apply assign_all_raises in Ha as [?|?].
Qed.

Lemma first_distance_raises d a seeds b stations err :
  _distance_edge_server_base_station d
    (EdgeServer.new 0 (BaseStation.latitude a) (BaseStation.longitude a)
                    (Some (BaseStation.id a))) b = Raise err →
  assign_all d (seed_servers (a :: seeds)) (b :: stations) = Raise err.
Proof.
  intros H. unfold seed_servers. rewrite imap_cons.
  change (Z.of_nat 0) with 0. cbn [assign_all]. unfold assign_one.
  cbn [closest_loop]. by rewrite H.
Qed.

Lemma distance_outside_table d a b :
  BaseStation.id a ≠ 0 →
  ¬ (- Z.of_nat (length d) <= BaseStation.id a < Z.of_nat (length d)) →
  _distance_edge_server_base_station d
    (EdgeServer.new 0 (BaseStation.latitude a) (BaseStation.longitude a)
                    (Some (BaseStation.id a))) b = Raise IndexError.
Proof.
  intros Hne Hout. unfold _distance_edge_server_base_station. simpl.
  destruct (Z.eqb_spec (BaseStation.id a) 0); [done|].
  destruct (py_index d (BaseStation.id a)) as [row|err] eqn:Hrow; simpl.
  - exfalso. apply Hout, py_index_succeeds. by eexists.
  - f_equal. by eapply py_index_raises.
Qed.

(** X21: the identifiers of the base stations have to index the
    distance table: when every base station has an identifier other than
    [0] that lies outside the rows of the table, Top-K and Random asked
    for [1 <= k <= n] servers fail with [IndexError] at the first distance
    they compute. *)
Theorem greedy_needs_indexable_ids s st k :
  s = TopK ∨ s = Random →
  sample_draws_members →
  1 <= k <= Z.of_nat (length (base_stations st)) →
  Forall (λ b, BaseStation.id b ≠ 0 ∧
               ¬ (- Z.of_nat (length (distances st)) <= BaseStation.id b
                  < Z.of_nat (length (distances st)))) (base_stations st) →
  place_server s st k = Raise IndexError.
Proof.
  intros Hs Hsample Hk Hids.
  assert (∀ seeds stations,
            seeds ≠ [] → stations ≠ [] → seeds ⊆ base_stations st →
            assign_all (distances st) (seed_servers seeds) stations
            = Raise IndexError) as Hfail.
  { intros [|a seeds] [|b stations] Hs1 Hs2 Hsub; try done.
    apply first_distance_raises.
    destruct (proj1 (Forall_forall _ _) Hids a) as [Hne Hout];
      [apply Hsub; left|].
    by apply distance_outside_table. }
  assert (base_stations st ≠ []) as Hne.
  { intros Hnil. rewrite Hnil in Hk. simpl in Hk. lia. }
  destruct Hs as [-> | ->]; simpl.
  - unfold topk_place_server. rewrite Hfail; [done| | |].
    + apply py_slice_to_nonempty; [lia|by apply sorted_desc_nonempty].
    + by apply sorted_desc_nonempty.
    + intros a Ha%py_slice_to_subseteq. by rewrite sorted_desc_perm in Ha.
  - unfold random_place_server, random_sample.
    destruct (Z.ltb_spec k 0); [lia|].
    destruct (Z.ltb_spec (Z.of_nat (length (base_stations st))) k); [lia|].
    simpl.
    destruct (Hsample (base_stations st) (Z.to_nat k)) as [Hlen Hsub]; [lia|].
    rewrite Hfail; [done| |done|done].
    intros Hnil. rewrite Hnil in Hlen. simpl in Hlen. lia.
Qed.

(** ** Empty input and the division of the latency objective *)

Lemma empty_input_aux st k :
  sample_draws_members →
  base_stations st = [] →
  place_server TopK st k = Ok (set_edge_servers st []) ∧
  place_server Random st 0 = Ok (set_edge_servers st []) ∧
  (k ≠ 0 → place_server Random st k = Raise ValueError).
Proof.
  intros Hsample Hnil. simpl.
  unfold topk_place_server, random_place_server, random_sample.
  rewrite Hnil. simpl. split; [|split].
  - unfold py_slice_to. simpl. by destruct (k <? 0); rewrite take_nil.
  - destruct (Hsample [] 0%nat) as [Hlen _]; [done|].
    change (Z.to_nat 0) with 0%nat.
    by destruct (sample_choice [] 0).
  - intros Hk. change (Z.of_nat 0) with 0.
    destruct (Z.ltb_spec k 0); simpl; [done|].
    destruct (Z.ltb_spec 0 k); simpl; [done|lia].
Qed.

(** X22: on an empty sequence of base stations Top-K returns the empty
    placement for every count, without complaint; Random does so for the
    count [0] and raises [ValueError] for every other count; on the empty
    placement the latency objective fails at its assertion. *)
Theorem empty_input st k :
  sample_draws_members →
  base_stations st = [] →
  place_server TopK st k = Ok (set_edge_servers st []) ∧
  place_server Random st 0 = Ok (set_edge_servers st []) ∧
  (k ≠ 0 → place_server Random st k = Raise ValueError) ∧
  objective_latency (set_edge_servers st []) = Raise AssertionError.
Proof.
  intros Hsample Hnil.
  destruct (empty_input_aux st k Hsample Hnil) as (Htopk & Hrandom & Hother).
  by repeat split.
Qed.

Lemma greedy_servers_need_stations s st k st' :
  sample_draws_members →
  s = TopK ∨ s = Random →
  place_server s st k = Ok st' →
  base_stations st = [] →
  edge_servers st' = Some [].
Proof.
  intros Hsample Hs H Hnil.
  destruct (empty_input_aux st k Hsample Hnil) as (Htopk & Hrandom & Hother).
  destruct Hs as [-> | ->].
  - rewrite Htopk in H. by injection H as <-.
  - destruct (decide (k = 0)) as [-> | Hk].
    + rewrite Hrandom in H. by injection H as <-.
    + by rewrite Hother in H.
Qed.

(** X23: the division of [objective_latency] is safe after every
    placement: whatever k-means, Top-K or Random returned, the latency
    objective does not fail with [ZeroDivisionError]. *)
Theorem placement_division_safe s st k st' :
  sample_draws_members →
  s = KMeans ∨ s = TopK ∨ s = Random →
  place_server s st k = Ok st' →
  objective_latency st' ≠ Raise ZeroDivisionError.
Proof.
  intros Hsample [-> | Hs] H Hz.
  - apply kmeans_placement_facts in H as (servers & Hsrv & HF).
    apply (zero_division_inv _ servers) in Hz as [Hne Hnil]; [|done].
    destruct servers as [|e rest]; [done|].
    apply Forall_cons in HF as [[He _] _].
    rewrite assignment_cons in Hnil. by apply app_eq_nil in Hnil as [? _].
  - pose proof H as Hrun.
    apply greedy_placement_facts in H as (servers & Hsrv & _ & _ & Hperm);
      [|done].
    apply (zero_division_inv _ servers) in Hz as [Hne Hnil]; [|done].
    rewrite Hnil in Hperm. symmetry in Hperm. apply Permutation_nil_r in Hperm.
    apply (greedy_servers_need_stations _ _ _ _ Hsample Hs Hrun) in Hperm.
    congruence.
Qed.

(** X24: in a placement returned by Top-K or Random a base station that
    is strictly nearer to one edge server than to every other one is in
    the list of that server. *)
Theorem greedy_strictly_nearest s st k st' servers i e a q :
  s = TopK ∨ s = Random →
  place_server s st k = Ok st' →
  edge_servers st' = Some servers →
  a ∈ base_stations st →
  servers !! i = Some e →
  _distance_edge_server_base_station (distances st) e a = Ok q →
  (∀ j e' q', j ≠ i → servers !! j = Some e' →
     _distance_edge_server_base_station (distances st) e' a = Ok q' →
     (q < q')%Q) →
  a ∈ EdgeServer.assigned_base_stations e.
Proof.
  intros Hs H Hsrv Ha Hi Hq Hstrict.
  apply greedy_placement_facts in H as (srv & Hsrv' & _ & Hnear & Hperm);
    [|done].
  rewrite Hsrv in Hsrv'. injection Hsrv' as <-.
  rewrite <- Hperm in Ha. apply elem_of_concat in Ha as (l & Hal & Hl).
  apply list_elem_of_lookup in Hl as (j & Hj).
  rewrite list_lookup_fmap in Hj.
  destruct (servers !! j) as [ej|] eqn:Hej; [|done]. injection Hj as <-.
  destruct (decide (j = i)) as [-> | Hne].
  - rewrite Hi in Hej. by injection Hej as <-.
  - exfalso. destruct (Hnear j ej a Hej Hal) as (e0 & qj & Hj0 & Hqj & _ & Hmin).
    rewrite Hej in Hj0. injection Hj0 as <-.
    destruct (Hmin i e Hi) as (q0 & Hq0 & Hle & _).
    rewrite Hq in Hq0. injection Hq0 as <-.
    specialize (Hstrict j ej qj Hne Hej Hqj). lra.
Qed.

End Coverage.

(** * The scenarios, evaluated *)

#[local] Existing Instance Scenario.grid.

Lemma grid_kmeans2_labels_all : kmeans2_labels_all.
Proof.
  intros data k r H. simpl in H. unfold Scenario.one_cluster in H.
  destruct (_ && _); [|done]. injection H as <-. simpl. by rewrite length_map.
Qed.

Lemma grid_sample_draws_members : sample_draws_members.
Proof.
  intros population k Hk. simpl. split.
  - rewrite length_take. lia.
  - apply sublist_subseteq, sublist_take.
Qed.

Lemma insert_index_perm row i p : Scenario.insert_index row i p ≡ₚ i :: p.
Proof.
  induction p as [|j p IH]; simpl; [done|].
  destruct (Qle_bool _ _); [done|]. rewrite IH. apply perm_swap.
Qed.

Lemma insert_index_sorted row i p :
  StronglySorted (λ x y, (nth x row 0 <= nth y row 0)%Q) p →
  StronglySorted (λ x y, (nth x row 0 <= nth y row 0)%Q)
                 (Scenario.insert_index row i p).
Proof.
  induction p as [|j p IH]; simpl; intros Hs.
  - repeat constructor.
  - apply StronglySorted_inv in Hs as [Hs Hj].
    destruct (Qle_bool _ _) eqn:Hle.
    + apply Qle_bool_iff in Hle. constructor; [by constructor|].
      constructor; [done|]. eapply Forall_impl; [exact Hj|].
      simpl. intros z Hz. lra.
    + assert (nth j row 0 < nth i row 0)%Q as Hlt.
      { apply Qnot_le_lt. intros Hc. apply Qle_bool_iff in Hc. congruence. }
      constructor; [by apply IH|].
      rewrite insert_index_perm. constructor; [lra|done].
Qed.

Lemma StronglySorted_lookup {A} (R : A → A → Prop) (l : list A) i j x y :
  StronglySorted R l → (i < j)%nat → l !! i = Some x → l !! j = Some y → R x y.
Proof.
  intros Hs. revert i j. induction Hs as [|a l Hs IH Ha]; intros i j Hij Hx Hy.
  - by rewrite lookup_nil in Hx.
  - destruct i as [|i], j as [|j]; simpl in Hx, Hy; try lia.
    + injection Hx as <-. eapply (proj1 (Forall_lookup _ _) Ha); done.
    + apply (IH i j); [lia|done|done].
Qed.

(** The index order of the scenarios is one [argpartition] may return. *)
Lemma grid_argpartition_contract : argpartition_contract.
Proof.
  intros row kth _. simpl. unfold Scenario.argsort.
  assert (∀ l, foldr (Scenario.insert_index row) [] l ≡ₚ l ∧
               StronglySorted (λ x y, (nth x row 0 <= nth y row 0)%Q)
                 (foldr (Scenario.insert_index row) [] l)) as H.
  { induction l as [|i l [IHp IHs]]; simpl; [by split; [|constructor]|].
    split; [by rewrite insert_index_perm, IHp|by apply insert_index_sorted]. }
  destruct (H (seq 0 (length row))) as [Hp Hs]. split; [done|].
  intros i j x y Hi Hj Hx Hy.
  destruct (decide (i = j)) as [->|Hne].
  - rewrite Hx in Hy. injection Hy as ->. lra.
  - eapply (StronglySorted_lookup _ _ i j x y Hs); [lia|done|done].
Qed.

(** The specification's scenario: Top-K with two servers on the square
    puts two base stations of workload 1 on each server. *)
Example square_top2_placement :
  place_server TopK (init Scenario.square Scenario.square_distances) 2
  = Ok (mkServerPlacement Scenario.square Scenario.square_distances
          (Some Scenario.square_top2)).
Proof. vm_compute. reflexivity. Qed.

(** Two servers on the square under MIP preprocessing: every base station
    gets its two nearest ones. *)
Example square_neighbourhoods :
  preprocess_problem (init Scenario.square Scenario.square_distances) 2
  = Ok [[0; 1]; [1; 0]; [2; 0]; [3; 1]]%nat.
Proof. vm_compute. reflexivity. Qed.

Example square_neighbourhoods_nearest :
  Forall2 (λ row nb, nearest_neighbourhood row 2 nb)
          Scenario.square_distances [[0; 1]; [1; 0]; [2; 0]; [3; 1]]%nat.
Proof.
  apply (preprocess_rows_nearest _ 2);
    [exact grid_argpartition_contract|lia|vm_compute; reflexivity].
Qed.

Lemma distance_colocated_with_station_zero_witness :
  let es := EdgeServer.new 0 0 0 (Some 0) in
  let bs := BaseStation.new 1 0 1 1 in
  let d := [ [0; 3]; [3; 0] ]%Q in
  (row ← py_index d 0; py_index row (BaseStation.id bs)) = Ok 3%Q ∧
  _distance_edge_server_base_station d es bs = Ok 1%Q ∧
  _distance_edge_server_base_station d es bs ≠ Ok 3%Q.
Proof.
  intros es bs d.
  destruct (distance_colocated_with_station_zero d es bs 3%Q) as [Hgeo Hne].
  - reflexivity.
  - reflexivity.
  - split; [reflexivity|]. split; [exact Hgeo|].
    apply Hne. vm_compute. discriminate.
Defined.

(** C2 (the code at the failing input): Top-K with two servers on two
    base stations of one mast assigns both to the first server and keeps
    the second one, whose workload is zero, in the placement. *)
Theorem topk_keeps_idle_server :
  place_server TopK (init Scenario.cosited Scenario.cosited_distances) 2
  = Ok (mkServerPlacement Scenario.cosited Scenario.cosited_distances
          (Some Scenario.cosited_top2)) ∧
  ∃ e, e ∈ Scenario.cosited_top2 ∧ (EdgeServer.workload e == 0)%Q.
Proof.
  split; [vm_compute; reflexivity|].
  exists (EdgeServer.mk 1 0 0 (Some 1) [] 0). split; [|reflexivity].
  right. left.
Qed.

(** C1 (counterexample): k-means with one cluster on two base stations
    without traffic drops the only server, and both base stations with
    it. *)
Lemma kmeans_drops_quiet_stations :
  let st := init Scenario.quiet Scenario.pair_distances in
  1 <= 1 <= Z.of_nat (length (base_stations st)) ∧
  place_server KMeans st 1 = Ok (set_edge_servers st []) ∧
  ¬ assigned_exactly_once [] (base_stations st).
Proof.
  split; [simpl; lia|]. split; [vm_compute; reflexivity|].
  unfold assigned_exactly_once. simpl. by intros ?%Permutation_nil_cons.
Qed.

Lemma place_server_assigns_once_witness :
  ∃ servers,
    Some Scenario.square_top2 = Some servers ∧
    assigned_exactly_once servers Scenario.square.
Proof.
  destruct (place_server_assigns_once TopK
              (init Scenario.square Scenario.square_distances) 2
              (mkServerPlacement Scenario.square Scenario.square_distances
                 (Some Scenario.square_top2)))
    as (servers & Hs & _ & Honce).
  - exact grid_kmeans2_labels_all.
  - right. left. reflexivity.
  - vm_compute. reflexivity.
  - exists servers. split; [exact Hs|]. apply Honce. left. discriminate.
Defined.

(** C3 (counterexample): Top-K asked for three servers on two base
    stations returns a placement. *)
Lemma topk_accepts_excess_count :
  let st := init Scenario.pair Scenario.pair_distances in
  Z.of_nat (length (base_stations st)) < 3 ∧
  place_server TopK st 3 = Ok (set_edge_servers st Scenario.pair_top).
Proof. split; [simpl; lia|vm_compute; reflexivity]. Qed.

Lemma server_count_handling_witness :
  let st := init Scenario.pair Scenario.pair_distances in
  place_server Random st 3 = Raise ValueError ∧
  place_server TopK st 0 = Raise AttributeError ∧
  succeeds (place_server TopK st 3) ∧
  succeeds (place_server Random st 2).
Proof.
  intros st.
  destruct (server_count_handling st 3 grid_sample_draws_members)
    as (Hrandom & _ & _ & _ & Htopk & _).
  destruct (server_count_handling st 0 grid_sample_draws_members)
    as (_ & Hzero & _).
  destruct (server_count_handling st 2 grid_sample_draws_members)
    as (_ & _ & _ & _ & _ & Hin).
  split; [apply Hrandom; right; simpl; lia|].
  split; [apply Hzero; [reflexivity|simpl; lia]|].
  split; [apply Htopk; [lia|vm_compute; reflexivity]|].
  apply Hin; [simpl; lia|vm_compute; reflexivity].
Defined.


Lemma topk_seeds_top_workloads_witness :
  ∃ servers,
    Some Scenario.square_top2 = Some servers ∧
    EdgeServer.site <$> servers
    = [ BaseStation.site (BaseStation.new 0 0 0 1);
        BaseStation.site (BaseStation.new 1 0 1 1) ].
Proof.
  destruct (topk_seeds_top_workloads
              (init Scenario.square Scenario.square_distances) 2
              (mkServerPlacement Scenario.square Scenario.square_distances
                 (Some Scenario.square_top2)))
    as (_ & _ & _ & servers & Hs & _ & Hfour).
  - lia.
  - vm_compute. reflexivity.
  - exists servers. split; [exact Hs|].
    eapply Hfour; reflexivity.
Defined.


Lemma place_server_frame_witness :
  let st' := mkServerPlacement Scenario.square Scenario.square_distances
               (Some Scenario.square_top2) in
  base_stations st' = Scenario.square ∧ distances st' = Scenario.square_distances.
Proof.
  apply (place_server_frame TopK
           (init Scenario.square Scenario.square_distances) 2).
  vm_compute. reflexivity.
Defined.

Lemma objective_latency_before_placement_witness :
  objective_latency (init Scenario.square Scenario.square_distances)
  = Raise AssertionError.
Proof. apply objective_latency_before_placement. reflexivity. Defined.

Lemma preprocess_problem_single_server_witness :
  preprocess_problem (init Scenario.pair Scenario.pair_distances) 1
  = Raise ValueError.
Proof.
  apply (preprocess_problem_single_server _ [0; 1]%Q [[1; 0]%Q]).
  - reflexivity.
  - simpl. lia.
Defined.

(** * Witnesses of the further properties *)


Lemma objective_latency_no_station_witness :
  let idle := [EdgeServer.new 0 0 0 None] in
  objective_latency
    (mkServerPlacement Scenario.pair Scenario.pair_distances (Some idle))
  = Raise ZeroDivisionError.
Proof.
  intros idle.
  apply (objective_latency_no_station
           (mkServerPlacement Scenario.pair Scenario.pair_distances (Some idle))
           idle); [reflexivity|].
  split; [discriminate|reflexivity].
Defined.

Lemma greedy_placement_nearest_witness :
  let b3 := BaseStation.new 3 1 1 1 in
  ∃ q, _distance_edge_server_base_station Scenario.square_distances
         (EdgeServer.mk 1 0 1 (Some 1)
            [BaseStation.new 1 0 1 1; b3] 2) b3 = Ok q ∧
       (q < sentinel)%Q ∧
       ∀ i e', Scenario.square_top2 !! i = Some e' →
         ∃ q', _distance_edge_server_base_station Scenario.square_distances
                 e' b3 = Ok q' ∧
               (q <= q')%Q ∧ ((i < 1)%nat → (q < q')%Q).
Proof.
  intros b3.
  apply (greedy_placement_nearest TopK
           (init Scenario.square Scenario.square_distances) 2
           (mkServerPlacement Scenario.square Scenario.square_distances
              (Some Scenario.square_top2)) Scenario.square_top2).
  - left. reflexivity.
  - vm_compute. reflexivity.
  - reflexivity.
  - reflexivity.
  - right. left.
Defined.


Lemma placement_server_ids_witness :
  NoDup (EdgeServer.id <$> Scenario.square_top2) ∧
  (TopK ≠ KMeans →
   EdgeServer.id <$> Scenario.square_top2
   = Z.of_nat <$> seq 0 (length Scenario.square_top2)).
Proof.
  apply (placement_server_ids TopK
           (init Scenario.square Scenario.square_distances) 2
           (mkServerPlacement Scenario.square Scenario.square_distances
              (Some Scenario.square_top2))).
  - right. left. reflexivity.
  - vm_compute. reflexivity.
  - reflexivity.
Defined.

Lemma topk_server_count_witness :
  Z.of_nat (length Scenario.pair_top) = Z.min 3 2.
Proof.
  apply (topk_server_count (init Scenario.pair Scenario.pair_distances) 3
           (mkServerPlacement Scenario.pair Scenario.pair_distances
              (Some Scenario.pair_top))).
  - vm_compute. reflexivity.
  - reflexivity.
Defined.

Lemma random_servers_witness :
  0 <= 2 <= Z.of_nat (length Scenario.square) ∧
  Z.of_nat (length Scenario.square_top2) = 2 ∧
  ∃ seeds, seeds ⊆ Scenario.square ∧
           EdgeServer.site <$> Scenario.square_top2 = BaseStation.site <$> seeds.
Proof.
  apply (random_servers (init Scenario.square Scenario.square_distances) 2
           (mkServerPlacement Scenario.square Scenario.square_distances
              (Some Scenario.square_top2))).
  - exact grid_sample_draws_members.
  - vm_compute. reflexivity.
  - reflexivity.
Defined.

Lemma topk_seeds_dominate_witness :
  ∃ seeds others,
    seeds ++ others ≡ₚ Scenario.pair ∧
    EdgeServer.site <$> Scenario.pair_top = BaseStation.site <$> seeds ∧
    ∀ a b, a ∈ seeds → b ∈ others →
      (BaseStation.workload b <= BaseStation.workload a)%Q.
Proof.
  apply (topk_seeds_dominate (init Scenario.pair Scenario.pair_distances) 3
           (mkServerPlacement Scenario.pair Scenario.pair_distances
              (Some Scenario.pair_top))).
  - lia.
  - vm_compute. reflexivity.
  - reflexivity.
Defined.

Lemma greedy_objectives_return_witness :
  let st' := mkServerPlacement Scenario.square Scenario.square_distances
               (Some Scenario.square_top2) in
  succeeds (objective_latency st') ∧
  succeeds (objective_workload Cases.variance st').
Proof.
  apply (greedy_objectives_return Cases.variance TopK
           (init Scenario.square Scenario.square_distances) 2).
  - left. reflexivity.
  - vm_compute. reflexivity.
  - discriminate.
Defined.


Lemma kmeans_servers_loaded_witness :
  ∃ servers,
    edge_servers
      (call KMeans (init Scenario.square Scenario.square_distances) 1)
    = Some servers ∧
    Forall (λ e, ¬ (EdgeServer.workload e == 0)%Q ∧
                 EdgeServer.assigned_base_stations e ≠ [] ∧
                 EdgeServer.base_station_id e = None) servers.
Proof.
  eexists. split; [vm_compute; reflexivity|].
  eapply (kmeans_servers_loaded
            (init Scenario.square Scenario.square_distances) 1);
    vm_compute; reflexivity.
Defined.

Lemma kmeans_objectives_witness :
  let st' := call KMeans (init Scenario.pair Scenario.pair_distances) 1 in
  succeeds (objective_latency st') ∧
  succeeds (objective_workload Cases.variance st').
Proof.
  intros st'.
  destruct (kmeans_objectives Cases.variance
              (init Scenario.pair Scenario.pair_distances) 1 st'
              [EdgeServer.mk 0 (0 # 2) (1 # 2) None Scenario.pair 5])
    as [[Hnil _] | [_ Hret]].
  - vm_compute. reflexivity.
  - vm_compute. reflexivity.
  - discriminate.
  - exact Hret.
Defined.

Lemma kmeans_without_workload_witness :
  edge_servers (call KMeans (init Scenario.quiet Scenario.pair_distances) 1)
  = Some [].
Proof.
  apply (kmeans_without_workload
           (init Scenario.quiet Scenario.pair_distances) 1).
  - repeat constructor.
  - vm_compute. reflexivity.
Defined.

Lemma kmeans_place_server_succeeds_witness :
  succeeds (place_server KMeans
              (init Scenario.pair Scenario.pair_distances) 1).
Proof.
  destruct (kmeans_place_server_succeeds
              (init Scenario.pair Scenario.pair_distances) 1
              [(Scenario.mean [0; 0], Scenario.mean [0; 1])]%Q [0; 0]%nat)
    as [[_ Hback] _].
  - reflexivity.
  - apply Hback. split; [repeat constructor|simpl; lia].
Defined.

Lemma preprocess_problem_nearest_witness :
  Forall2 (λ row nb, nearest_neighbourhood row (normalised (-2) (length row)) nb)
          Scenario.square_distances [[0; 1]; [1; 0]; [2; 0]; [3; 1]]%nat.
Proof.
  apply (preprocess_problem_nearest
           (init Scenario.square Scenario.square_distances) (-2)).
  - exact grid_argpartition_contract.
  - vm_compute. reflexivity.
Defined.

Lemma preprocess_problem_floor_witness :
  ∃ assign,
    preprocess_problem (init Scenario.square Scenario.square_distances) 3
    = Ok assign ∧
    Forall2 (λ row nb, nearest_neighbourhood row (Z.to_nat (4 / 3)) nb)
            Scenario.square_distances assign.
Proof.
  apply (preprocess_problem_floor
           (init Scenario.square Scenario.square_distances) 3).
  - exact grid_argpartition_contract.
  - lia.
  - discriminate.
  - repeat constructor.
Defined.


Lemma distance_table_bounds_witness :
  let es := EdgeServer.new 1 0 1 (Some 1) in
  succeeds (_distance_edge_server_base_station Scenario.pair_distances es
              (BaseStation.new 0 0 0 5)) ∧
  _distance_edge_server_base_station Scenario.pair_distances es
    (BaseStation.new 7 0 0 2) = Raise IndexError.
Proof.
  intros es.
  destruct (distance_table_bounds Scenario.pair_distances es
              (BaseStation.new 0 0 0 5) 1) as [[_ Hback] _];
    [reflexivity|lia|].
  destruct (distance_table_bounds Scenario.pair_distances es
              (BaseStation.new 7 0 0 2) 1) as [[Hforth _] Hfail];
    [reflexivity|lia|].
  split.
  - apply Hback. split; [simpl; lia|].
    exists [1; 0]%Q. split; [reflexivity|simpl; lia].
  - apply Hfail. intros [_ (row & [= <-] & Hb)]%Hforth. simpl in Hb. lia.
Defined.

Lemma greedy_failures_witness :
  place_server Random (init Scenario.pair Scenario.pair_distances) 3
  = Raise ValueError.
Proof.
  destruct (greedy_failures (init Scenario.pair Scenario.pair_distances) 3)
    as (_ & _ & [_ Hback]).
  apply Hback. right. simpl. lia.
Defined.

Lemma greedy_needs_indexable_ids_witness :
  place_server TopK (init Cases.strangers Scenario.pair_distances) 1
  = Raise IndexError.
Proof.
  apply (greedy_needs_indexable_ids TopK
           (init Cases.strangers Scenario.pair_distances) 1).
  - left. reflexivity.
  - exact grid_sample_draws_members.
  - simpl. lia.
  - repeat constructor; simpl; lia.
Defined.

Lemma empty_input_witness :
  let st := init [] Scenario.pair_distances in
  place_server TopK st 5 = Ok (set_edge_servers st []) ∧
  place_server Random st 0 = Ok (set_edge_servers st []) ∧
  (5 ≠ 0 → place_server Random st 5 = Raise ValueError) ∧
  objective_latency (set_edge_servers st []) = Raise AssertionError.
Proof.
  intros st. apply (empty_input st 5); [exact grid_sample_draws_members|].
  reflexivity.
Defined.

Lemma placement_division_safe_witness :
  objective_latency
    (call TopK (init Scenario.cosited Scenario.cosited_distances) 2)
  ≠ Raise ZeroDivisionError.
Proof.
  apply (placement_division_safe TopK
           (init Scenario.cosited Scenario.cosited_distances) 2).
  - exact grid_sample_draws_members.
  - right. left. reflexivity.
  - vm_compute. reflexivity.
Defined.

Lemma greedy_strictly_nearest_witness :
  BaseStation.new 2 1 0 1
  ∈ [BaseStation.new 0 0 0 1; BaseStation.new 2 1 0 1]%Q.
Proof.
  apply (greedy_strictly_nearest TopK
           (init Scenario.square Scenario.square_distances) 2
           (mkServerPlacement Scenario.square Scenario.square_distances
              (Some Scenario.square_top2)) Scenario.square_top2 0%nat
           (EdgeServer.mk 0 0 0 (Some 0)
              [BaseStation.new 0 0 0 1; BaseStation.new 2 1 0 1] 2)
           (BaseStation.new 2 1 0 1) 1%Q).
  - left. reflexivity.
  - vm_compute. reflexivity.
  - reflexivity.
  - right. right. left.
  - reflexivity.
  - reflexivity.
  - intros [|[|j]] e' q' Hj He' Hq'; [done| |done].
    injection He' as <-. vm_compute in Hq'. injection Hq' as <-. reflexivity.
Defined.
